(** * Limits of symbolic expressions: [sympy/series/limits.py]

    A shallow embedding of the entry function [limit], the term-wise
    [heuristics], the constructor [Limit.__new__] and the evaluator
    [Limit.doit], together with the properties of the dispatch cascade.

    The expression algebra, the series machinery and the Gruntz solver are
    collaborators of this module: they are consumed through the interface
    [Algebra] below and every theorem holds for all of its instances. *)

From Stdlib Require Import List String ZArith QArith Bool Lia.
From Stdlib Require ListSet.
Import ListNotations.
Open Scope string_scope.
Open Scope Z_scope.

(** ** Expression trees

    Every SymPy object has a class ([expr.func]) and a tuple of arguments
    ([expr.args]); atoms have no arguments. *)

Inductive Head : Type :=
| HSymbol (name : string)
| HDummy (name : string) (index : nat)
| HInteger (n : Z)
| HRational (p : Z) (q : positive)
| HInfinity
| HNegativeInfinity
| HComplexInfinity
| HNaN
| HBooleanTrue
| HBooleanFalse
| HRelational (op : string)
| HAccumBounds
| HAdd
| HMul
| HPow
| HFunction (name : string)
| HOrder
| HLimit.

#[warnings="-register-all"]
Inductive Expr : Type :=
| Node (func : Head) (args : list Expr).

Definition func_of (e : Expr) : Head := let 'Node h _ := e in h.
Definition args_of (e : Expr) : list Expr := let 'Node _ l := e in l.

Definition Head_eq_dec (a b : Head) : {a = b} + {a <> b}.
Proof.
  decide equality;
    auto using string_dec, Z.eq_dec, Pos.eq_dec, Nat.eq_dec.
Defined.

Fixpoint Expr_eq_dec (a b : Expr) {struct a} : {a = b} + {a <> b}.
Proof.
  destruct a as [h l], b as [h' l'].
  destruct (Head_eq_dec h h') as [Hh | Hh].
  - destruct (list_eq_dec Expr_eq_dec l l') as [Hl | Hl].
    + left; congruence.
    + right; congruence.
  - right; congruence.
Defined.

(** Python's [a == b] on expressions is structural equality; [a is b] on the
    singletons of [S] coincides with it. *)
Definition Expr_eqb (a b : Expr) : bool :=
  if Expr_eq_dec a b then true else false.

Definition args_eqb (l l' : list Expr) : bool :=
  if list_eq_dec Expr_eq_dec l l' then true else false.

Definition Symbol (name : string) : Expr := Node (HSymbol name) [].
Definition Integer (n : Z) : Expr := Node (HInteger n) [].
Definition Zero : Expr := Integer 0.
Definition One : Expr := Integer 1.
Definition NegativeOne : Expr := Integer (-1).
Definition Infinity : Expr := Node HInfinity [].
Definition NegativeInfinity : Expr := Node HNegativeInfinity [].
Definition ComplexInfinity : Expr := Node HComplexInfinity [].
Definition NaN : Expr := Node HNaN [].
Definition BooleanTrue : Expr := Node HBooleanTrue [].

Definition is_Mul (e : Expr) : bool :=
  match func_of e with HMul => true | _ => false end.
Definition is_Add (e : Expr) : bool :=
  match func_of e with HAdd => true | _ => false end.
Definition is_Pow (e : Expr) : bool :=
  match func_of e with HPow => true | _ => false end.
Definition is_Function (e : Expr) : bool :=
  match func_of e with HFunction _ => true | _ => false end.
Definition is_Order (e : Expr) : bool :=
  match func_of e with HOrder => true | _ => false end.
Definition is_Limit (e : Expr) : bool :=
  match func_of e with HLimit => true | _ => false end.
Definition is_AccumBounds (e : Expr) : bool :=
  match func_of e with HAccumBounds => true | _ => false end.
Definition is_Abs (e : Expr) : bool :=
  match func_of e with
  | HFunction f => String.eqb f "Abs"
  | _ => false
  end.
(** [isinstance(d, Symbol)]: [Dummy] is a subclass of [Symbol]. *)
Definition is_Symbol (e : Expr) : bool :=
  match func_of e with HSymbol _ | HDummy _ _ => true | _ => false end.

Definition class_name (h : Head) : string :=
  match h with
  | HSymbol _ => "Symbol"
  | HDummy _ _ => "Dummy"
  | HInteger _ => "Integer"
  | HRational _ _ => "Rational"
  | HInfinity => "Infinity"
  | HNegativeInfinity => "NegativeInfinity"
  | HComplexInfinity => "ComplexInfinity"
  | HNaN => "NaN"
  | HBooleanTrue => "BooleanTrue"
  | HBooleanFalse => "BooleanFalse"
  | HRelational op => op
  | HAccumBounds => "AccumBounds"
  | HAdd => "Add"
  | HMul => "Mul"
  | HPow => "Pow"
  | HFunction f => f
  | HOrder => "Order"
  | HLimit => "Limit"
  end.

(** ** Exceptions and results *)

Inductive exn_kind : Type :=
| ValueError
| TypeError
| NotImplementedError
| PoleError
| PolynomialError
| IndexError.

Definition exn_kind_eqb (a b : exn_kind) : bool :=
  match a, b with
  | ValueError, ValueError
  | TypeError, TypeError
  | NotImplementedError, NotImplementedError
  | PoleError, PoleError
  | PolynomialError, PolynomialError
  | IndexError, IndexError => true
  | _, _ => false
  end.

(** A message is the format string with its [%s] holes filled in. *)
Inductive piece : Type :=
| Text (s : string)
| Fmt (e : Expr)
| FmtType (class : string).

Record exn : Type := mk_exn { kind : exn_kind; message : list piece }.

(** [except (k1, k2, ...)] *)
Definition caught_by (ks : list exn_kind) (x : exn) : bool :=
  existsb (exn_kind_eqb (kind x)) ks.

(** The result of a call: a value, an exception, or recursion deeper than
    the bound the model was run with. *)
Inductive result (A : Type) : Type :=
| Ok (a : A)
| Raise (x : exn)
| OutOfFuel.
Arguments Ok {A} a.
Arguments Raise {A} x.
Arguments OutOfFuel {A}.

(** The state of a function body between two statements: control goes on
    with [a], or the function has executed [return r], or it has raised. *)
Inductive flow (R A : Type) : Type :=
| Next (a : A)
| Return (r : R)
| Throw (x : exn)
| Exhausted.
Arguments Next {R A} a.
Arguments Return {R A} r.
Arguments Throw {R A} x.
Arguments Exhausted {R A}.

Definition bind {R A B} (m : flow R A) (k : A -> flow R B) : flow R B :=
  match m with
  | Next a => k a
  | Return r => Return r
  | Throw x => Throw x
  | Exhausted => Exhausted
  end.

Definition call {R A} (r : result A) : flow R A :=
  match r with
  | Ok a => Next a
  | Raise x => Throw x
  | OutOfFuel => Exhausted
  end.

(** Falling off the end of the body returns its last value. *)
Definition finish {R} (m : flow R R) : result R :=
  match m with
  | Next r | Return r => Ok r
  | Throw x => Raise x
  | Exhausted => OutOfFuel
  end.

Declare Scope flow_scope.
Delimit Scope flow_scope with flow.
Notation "x <- m ;; k" := (bind m (fun x => k))
  (at level 61, m at next level, right associativity) : flow_scope.
Notation "m ;; k" := (bind m (fun _ => k))
  (at level 61, right associativity) : flow_scope.
Open Scope flow_scope.

Definition mapM {A B} (f : A -> result B) : list A -> result (list B) :=
  fix go (l : list A) : result (list B) :=
    match l with
    | [] => Ok []
    | a :: l' =>
        match f a with
        | Ok b =>
            match go l' with
            | Ok bs => Ok (b :: bs)
            | Raise x => Raise x
            | OutOfFuel => OutOfFuel
            end
        | Raise x => Raise x
        | OutOfFuel => OutOfFuel
        end
    end.

(** Python truthiness of a three-valued assumption ([True], [False], [None]). *)
Definition truthy (b : option bool) : bool :=
  match b with Some true => true | _ => false end.

(** [a is None] *)
Definition is_None {B} (o : option B) : bool :=
  match o with None => true | Some _ => false end.

(** ** The interface consumed from the rest of SymPy *)

Class Algebra : Type := {
  (** the evaluating constructor of a class, applied to an argument tuple *)
  construct : Head -> list Expr -> Expr;
  (** [e.subs(old, new)] *)
  subs : Expr -> Expr -> Expr -> Expr;
  (** [e.has(pattern)] *)
  has : Expr -> Expr -> bool;
  (** [e.doit] with the caller's hints *)
  deep_doit : Expr -> result Expr;
  (** [str(e)] *)
  sstr : Expr -> string;
  (** [e.is_meromorphic(z, z0)] *)
  is_meromorphic : Expr -> Expr -> Expr -> option bool;
  (** [e.leadterm(z, cdir)] *)
  leadterm : Expr -> Expr -> Z -> result (Expr * Expr);
  (** [e.as_leading_term(u)] and [e.gammasimp()] *)
  as_leading_term : Expr -> Expr -> result Expr;
  gammasimp : Expr -> result Expr;
  (** [e.rewrite(factorial, gamma)] *)
  rewrite_factorial_gamma : Expr -> Expr;
  factor_terms : Expr -> Expr;
  together : Expr -> Expr;
  factor : Expr -> Expr;
  ratsimp : Expr -> result Expr;
  simplify : Expr -> Expr;
  (** the assumption queries, [True], [False] or [None] *)
  is_zero : Expr -> option bool;
  is_real : Expr -> option bool;
  is_extended_real : Expr -> option bool;
  is_extended_positive : Expr -> option bool;
  is_finite : Expr -> option bool;
  (** [gruntz(e, z, z0, dir)], which reads its direction through [str] *)
  gruntz : Expr -> Expr -> Expr -> string -> result Expr;
  (** the counter behind [Dummy(...)] *)
  fresh_index : Expr -> nat
}.

(** [Limit] nodes: [obj._args = (e, z, z0, dir)]. *)
Record LimitNode : Type := mkLimit {
  l_expr : Expr;
  l_var : Expr;
  l_point : Expr;
  l_dir : Expr
}.

Definition to_expr (L : LimitNode) : Expr :=
  Node HLimit [l_expr L; l_var L; l_point L; l_dir L].

(** The [dir] argument as Python passes it: a [str], a SymPy object, or an
    object of some other type. *)
Inductive DirArg : Type :=
| DString (s : string)
| DBasic (d : Expr)
| DObject (class : string).

Definition valid_dirs : list string := ["+"; "-"; "+-"].

Definition str_in (s : string) (l : list string) : bool :=
  existsb (String.eqb s) l.

(** Numbers: [ex > 0], [ex == 0] and [int(ex)] are arithmetic on them. *)
Definition number_value (e : Expr) : option Q :=
  match e with
  | Node (HInteger n) [] => Some (inject_Z n)
  | Node (HRational p q) [] => Some (Qmake p q)
  | _ => None
  end.

(** [int(q)] truncates towards zero. *)
Definition int_of_Q (q : Q) : Z := Z.quot (Qnum q) (Zpos (Qden q)).

Section Limits.

Context {A : Algebra}.

(** [str(e)]: a symbol prints as its name, a dummy with a leading underscore. *)
Definition str (e : Expr) : string :=
  match e with
  | Node (HSymbol s) [] => s
  | Node (HDummy s _) [] => "_" ++ s
  | _ => sstr e
  end.

(** Arithmetic on expressions goes through the evaluating constructors. *)
Definition Mul (l : list Expr) : Expr := construct HMul l.
Definition Add (l : list Expr) : Expr := construct HAdd l.
Definition Pow (b e : Expr) : Expr := construct HPow [b; e].
Definition mul (a b : Expr) : Expr := Mul [a; b].
Definition add (a b : Expr) : Expr := Add [a; b].
Definition neg (a : Expr) : Expr := Mul [NegativeOne; a].
(** [n/a] for a Python integer [n] is [Mul(n, Pow(a, -1))]. *)
Definition rdiv (n : Z) (a : Expr) : Expr :=
  Mul [Integer n; Pow a NegativeOne].
(** [a - 1] is [Add(a, -1)]. *)
Definition sub1 (a : Expr) : Expr := Add [a; NegativeOne].
Definition exp (a : Expr) : Expr := construct (HFunction "exp") [a].
Definition log (a : Expr) : Expr := construct (HFunction "log") [a].
Definition sign (a : Expr) : Expr := construct (HFunction "sign") [a].
Definition Abs (a : Expr) : Expr := construct (HFunction "Abs") [a].
Definition Order (l : list Expr) : Expr := construct HOrder l.
Definition lt0 (a : Expr) : Expr := construct (HRelational "<") [a; Zero].
Definition gt0 (a : Expr) : Expr := construct (HRelational ">") [a; Zero].

Definition has_any (e : Expr) (pats : list Expr) : bool :=
  existsb (has e) pats.

(** [abs(z0) is S.Infinity] *)
Definition infinite_magnitude (z0 : Expr) : bool :=
  Expr_eqb (Abs z0) Infinity.

Definition wrong_type (class : string) : exn :=
  mk_exn TypeError
    [Text "direction must be of type basestring or Symbol, not ";
     FmtType class].

Definition invalid_direction (d : Expr) : exn :=
  mk_exn ValueError
    [Text "direction must be one of '+', '-' or '+-', not "; Fmt d].

(** *** [Limit.__new__] (lines 145-166); [sympify] is the identity on
    expressions. *)
Definition Limit_new (e z z0 : Expr) (dir : DirArg) : result LimitNode :=
  let dir :=
    if Expr_eqb z0 Infinity then DString "-"
    else if Expr_eqb z0 NegativeInfinity then DString "+"
    else dir in
  let checked :=
    match dir with
    | DString s => Ok (Symbol s)
    | DBasic d =>
        if is_Symbol d then Ok d
        else Raise (wrong_type (class_name (func_of d)))
    | DObject c => Raise (wrong_type c)
    end in
  match checked with
  | Ok d =>
      if negb (str_in (str d) valid_dirs) then Raise (invalid_direction d)
      else Ok (mkLimit e z z0 d)
  | Raise x => Raise x
  | OutOfFuel => OutOfFuel
  end.

(** *** The bodies of [heuristics] and [Limit.doit]

    Both call [limit] and [heuristics] again; the bodies take those two
    functions as [lim] and [heur], and the recursion is tied further down. *)

Section Bodies.

Variable lim : Expr -> Expr -> Expr -> DirArg -> result Expr.
Variable heur : Expr -> Expr -> Expr -> DirArg -> result (option Expr).

Definition try_except {R B} (body : flow R B) (ks : list exn_kind)
    (handler : flow R B) : flow R B :=
  match body with
  | Throw x => if caught_by ks x then handler else Throw x
  | m => m
  end.

Definition index_error : exn :=
  mk_exn IndexError [Text "tuple index out of range"].

(** The loop of [heuristics] over [e.args] (lines 84-102); [r] collects the
    limits of the arguments seen so far. *)
Fixpoint heuristics_args (e z z0 : Expr) (dir : DirArg)
    (todo r : list Expr) {struct todo} : flow (option Expr) (list Expr) :=
  match todo with
  | [] => Next r
  | a :: rest =>
      l <- call (lim a z z0 dir) ;;
      if has l Infinity && is_None (is_finite l) then
        if is_Add e then
          let m := factor_terms e in
          let m := if negb (is_Mul m) then together m else m in
          let m := if negb (is_Mul m) then factor e else m in
          if is_Mul m then
            rv <- call (heur m z z0 dir) ;; Return rv
          else Return None
        else Return None
      else if is_Limit l then Return None
      else if Expr_eqb l NaN then Return None
      else heuristics_args e z z0 dir rest (r ++ [l])
  end.

(** [heuristics(e, z, z0, dir)] (lines 68-127); [None] is "no result". *)
Definition heuristics_body (e z z0 : Expr) (dir : DirArg)
    : result (option Expr) :=
  finish (
    if infinite_magnitude z0 then
      rv <- call (lim (subs e z (rdiv 1 z)) z Zero
                    (DString (if Expr_eqb z0 Infinity then "+" else "-"))) ;;
      if is_Limit rv then Return None else Next (Some rv)
    else if is_Mul e || is_Add e || is_Pow e || is_Function e then
      r <- heuristics_args e z z0 dir (args_of e) [] ;;
      match r with
      | [] => Next None
      | _ :: _ =>
          let rv := construct (func_of e) r in
          rv <- (if Expr_eqb rv NaN && is_Mul e && existsb is_AccumBounds r
                 then
                   let r2 := filter is_AccumBounds r in
                   let e2 :=
                     map fst (filter (fun p => negb (is_AccumBounds (snd p)))
                                     (combine (args_of e) r)) in
                   match e2 with
                   | [] => Next rv
                   | _ :: _ =>
                       let e3 := simplify (Mul e2) in
                       l <- call (lim e3 z z0 dir) ;;
                       Next (mul l (Mul r2))
                   end
                 else Next rv) ;;
          if Expr_eqb rv NaN then
            rat_e <- try_except (call (ratsimp e)) [PolynomialError]
                       (Return None) ;;
            if Expr_eqb rat_e NaN || Expr_eqb rat_e e then Return None
            else
              rv' <- call (lim rat_e z z0 dir) ;; Return (Some rv')
          else Next (Some rv)
      end
    else Next None).

(** [cdir] (lines 211-215) *)
Definition cdir_of (dir : Expr) : Z :=
  if String.eqb (str dir) "+" then 1
  else if String.eqb (str dir) "-" then -1
  else 0.

(** The nested function [remove_abs] (lines 217-232), for the [z], [z0] and
    [dir] of the enclosing call. *)
Fixpoint remove_abs (z z0 dir : Expr) (expr : Expr) {struct expr}
    : result Expr :=
  match expr with
  | Node _ [] => Ok expr
  | Node h args =>
      match mapM (remove_abs z z0 dir) args with
      | Ok newargs =>
          let expr :=
            if negb (args_eqb newargs args) then construct h newargs
            else expr in
          if is_Abs expr then
            finish (
              a <- match args_of expr with
                   | a :: _ => Next a
                   | [] => Throw index_error
                   end ;;
              sig <- call (lim a z z0 (DBasic dir)) ;;
              sig <- (if truthy (is_zero sig)
                      then call (lim (rdiv 1 a) z z0 (DBasic dir))
                      else Next sig) ;;
              if truthy (is_extended_real sig) then
                if Expr_eqb (lt0 sig) BooleanTrue then Return (neg a)
                else if Expr_eqb (gt0 sig) BooleanTrue then Return a
                else Next expr
              else Next expr)
          else Ok expr
      | Raise x => Raise x
      | OutOfFuel => OutOfFuel
      end
  end.

Definition unsupported_point : exn :=
  mk_exn NotImplementedError
    [Text "Limits at complex infinity are not implemented"].

(** Lines 200-203: with the [deep] hint the three arguments are evaluated
    first; [limit] passes [deep=False]. *)
Definition normalize_args (deep : bool) (self : LimitNode)
    : result (Expr * Expr * Expr) :=
  if deep then
    finish (
      e' <- call (deep_doit (l_expr self)) ;;
      z' <- call (deep_doit (l_var self)) ;;
      z0' <- call (deep_doit (l_point self)) ;;
      Next (e', z', z0'))
  else Ok (l_expr self, l_var self, l_point self).

(** Lines 194-234 of [doit]: the guard on the point, the [deep] hint, the
    two trivial answers and the removal of absolute values.  Control goes
    on with the current [(e, z, z0)]. *)
Definition prelude (deep : bool) (self : LimitNode)
    : flow Expr (Expr * Expr * Expr) :=
  if Expr_eqb (l_point self) ComplexInfinity then Throw unsupported_point
  else
    ezz <- call (normalize_args deep self) ;;
    let '(e, z, z0) := ezz in
    if Expr_eqb e z then Return z0
    else if negb (has e z) then Return e
    else
      e <- call (remove_abs z z0 (l_dir self) e) ;;
      Next (e, z, z0).

(** [bool(ex > 0)]: arithmetic on a number; on anything else the relational
    is built and its truth value taken, which fails unless it evaluated. *)
Definition undetermined : exn :=
  mk_exn TypeError [Text "cannot determine truth value of Relational"].

Definition truth_gt0 (ex : Expr) : result bool :=
  match number_value ex with
  | Some q => Ok (negb (Qle_bool q 0))
  | None =>
      match gt0 ex with
      | Node HBooleanTrue [] => Ok true
      | Node HBooleanFalse [] => Ok false
      | _ => Raise undetermined
      end
  end.

(** [int(ex)] *)
Definition not_a_number : exn :=
  mk_exn TypeError [Text "can't convert expression to int"].

Definition int (ex : Expr) : result Z :=
  match number_value ex with
  | Some q => Ok (int_of_Q q)
  | None => Raise not_a_number
  end.

(** Lines 237-240: the point is moved to zero. *)
Definition shift (e z z0 : Expr) : Expr :=
  if infinite_magnitude z0 then subs e z (rdiv (-1) z)
  else subs e z (add z z0).

(** Lines 236-255: the leading term of a meromorphic expression decides. *)
Definition meromorphic_path (e z z0 dir : Expr) : flow Expr unit :=
  if truthy (is_meromorphic e z z0) then
    let newe := shift e z z0 in
    match leadterm newe z (cdir_of dir) with
    | Ok (coeff, ex) =>
        positive <- call (truth_gt0 ex) ;;
        if positive : bool then Return Zero
        else if Expr_eqb ex Zero then Return coeff
        else
          plus_or_even <-
            (if String.eqb (str dir) "+" then Next true
             else n <- call (int ex) ;; Next (Z.land n 1 =? 0)) ;;
          if plus_or_even : bool then Return (mul Infinity (sign coeff))
          else if String.eqb (str dir) "-"
          then Return (mul NegativeInfinity (sign coeff))
          else Return ComplexInfinity
    | Raise x =>
        if caught_by [ValueError; NotImplementedError] x then Next tt
        else Throw x
    | OutOfFuel => Exhausted
    end
  else Next tt.

(** Lines 261-262 *)
Definition factorial_rewrite (e z0 : Expr) : Expr :=
  if truthy (is_extended_positive z0) then rewrite_factorial_gamma e else e.

(** Lines 264-280: a product at an infinite point; control goes on with
    the factored [e]. *)
Definition mul_at_infinity (self : LimitNode) (e z z0 : Expr)
    : flow Expr Expr :=
  if is_Mul e && infinite_magnitude z0 then
    let e := factor_terms e in
    let u := Node (HDummy "u" (fresh_index e)) [] in
    let inve :=
      if Expr_eqb z0 NegativeInfinity then subs e z (rdiv (-1) u)
      else subs e z (rdiv 1 u) in
    try_except
      (lead <- call (as_leading_term inve u) ;;
       f <- call (gammasimp lead) ;;
       if truthy (is_meromorphic f u Zero) then
         r <- call (lim f u Zero (DString "+")) ;;
         if is_Limit r then Return (to_expr self) else Return r
       else Next tt)
      [ValueError; NotImplementedError; PoleError]
      (Next tt) ;;
    Next e
  else Next e.

(** Lines 282-283 *)
Definition order_path (e z z0 : Expr) : flow Expr unit :=
  if is_Order e then
    match args_of e with
    | inner :: rest =>
        l <- call (lim inner z z0 (DString "+")) ;;
        Return (Order (l :: rest))
    | [] => Throw index_error
    end
  else Next tt.

(** Lines 285-318 *)
Definition power_path (self : LimitNode) (e z z0 : Expr) : flow Expr unit :=
  if is_Pow e then
    if has_any e [Infinity; NegativeInfinity; ComplexInfinity; NaN]
    then Return (to_expr self)
    else
      match args_of e with
      | b1 :: e1 :: _ =>
          let f1 := mul e1 (log b1) in
          if truthy (is_meromorphic f1 z z0) then
            res <- call (lim f1 z z0 (DString "+")) ;;
            Return (exp res)
          else
            ex_lim <- call (lim e1 z z0 (DString "+")) ;;
            base_lim <- call (lim b1 z z0 (DString "+")) ;;
            (if Expr_eqb base_lim One then
               if Expr_eqb ex_lim Infinity || Expr_eqb ex_lim NegativeInfinity
               then
                 res <- call (lim (mul e1 (sub1 b1)) z z0 (DString "+")) ;;
                 Return (exp res)
               else if truthy (is_real ex_lim) then Return One
               else Next tt
             else Next tt) ;;
            (if (Expr_eqb base_lim Zero || Expr_eqb base_lim Infinity
                 || Expr_eqb base_lim NegativeInfinity)
                && Expr_eqb ex_lim Zero
             then
               res <- call (lim f1 z z0 (DString "+")) ;;
               Return (exp res)
             else Next tt) ;;
            (if Expr_eqb base_lim NegativeInfinity then
               if Expr_eqb ex_lim NegativeInfinity then Return Zero
               else if Expr_eqb ex_lim Infinity then Return ComplexInfinity
               else Next tt
             else Next tt) ;;
            if negb (is_AccumBounds base_lim) && negb (is_AccumBounds ex_lim)
            then
              let res := Pow base_lim ex_lim in
              if negb (Expr_eqb res ComplexInfinity) && negb (is_Pow res)
              then Return res
              else Next tt
            else Next tt
      | _ => Throw index_error
      end
  else Next tt.

(** Lines 194-283: what comes before the power path; control reaches
    line 285 with the current [(e, z, z0)]. *)
Definition before_power (deep : bool) (self : LimitNode)
    : flow Expr (Expr * Expr * Expr) :=
  ezz <- prelude deep self ;;
  let '(e, z, z0) := ezz in
  meromorphic_path e z z0 (l_dir self) ;;
  let e := factorial_rewrite e z0 in
  e <- mul_at_infinity self e z z0 ;;
  order_path e z z0 ;;
  Next (e, z, z0).

(** Everything that comes before the general fallback (lines 194-318);
    control reaches line 320 with the current [(e, z, z0)]. *)
Definition fast_paths (deep : bool) (self : LimitNode)
    : flow Expr (Expr * Expr * Expr) :=
  ezz <- before_power deep self ;;
  let '(e, z, z0) := ezz in
  power_path self e z z0 ;;
  Next (e, z, z0).

Definition no_limit (l r : Expr) : exn :=
  mk_exn ValueError
    [Text "The limit does not exist since left hand limit = "; Fmt l;
     Text " and right hand limit = "; Fmt r].

Definition pole : exn := mk_exn PoleError [].

(** The [try] block of lines 322-333.  The handler looks at the local
    variable [l], so the block yields its value at exit ([None] while
    unassigned) next to the outcome. *)
Definition solver_attempt (e z z0 dir : Expr) : option Expr * result Expr :=
  if String.eqb (str dir) "+-" then
    match gruntz e z z0 "+" with
    | Ok r =>
        match gruntz e z z0 "-" with
        | Ok l =>
            if negb (Expr_eqb l r) then (Some l, Raise (no_limit l r))
            else if Expr_eqb r NaN || Expr_eqb l NaN
            then (Some l, Raise pole)
            else (Some l, Ok r)
        | Raise x => (None, Raise x)
        | OutOfFuel => (None, OutOfFuel)
        end
    | Raise x => (None, Raise x)
    | OutOfFuel => (None, OutOfFuel)
    end
  else
    match gruntz e z z0 (str dir) with
    | Ok r => if Expr_eqb r NaN then (None, Raise pole) else (None, Ok r)
    | Raise x => (None, Raise x)
    | OutOfFuel => (None, OutOfFuel)
    end.

(** Lines 320-341 *)
Definition general_fallback (self : LimitNode) (e z z0 : Expr)
    : flow Expr Expr :=
  let dir := l_dir self in
  let '(l, attempt) := solver_attempt e z z0 dir in
  match attempt with
  | Ok r => Return r
  | Raise x =>
      if caught_by [PoleError; ValueError] x then
        if negb (is_None l) then Throw x
        else
          r <- call (heur e z z0 (DBasic dir)) ;;
          match r with
          | None => Return (to_expr self)
          | Some r => Return r
          end
      else Throw x
  | OutOfFuel => Exhausted
  end.

(** [Limit.doit] (lines 178-341) *)
Definition doit_body (deep : bool) (self : LimitNode) : result Expr :=
  finish (
    ezz <- fast_paths deep self ;;
    let '(e, z, z0) := ezz in
    general_fallback self e z z0).

End Bodies.

(** *** Tying the recursion

    [limit n] and [heuristics n] may nest calls to one another [n] deep;
    deeper recursion yields [OutOfFuel]. *)

Definition no_limit_call : Expr -> Expr -> Expr -> DirArg -> result Expr :=
  fun _ _ _ _ => OutOfFuel.
Definition no_heuristics_call
    : Expr -> Expr -> Expr -> DirArg -> result (option Expr) :=
  fun _ _ _ _ => OutOfFuel.

(** [limit(e, z, z0, dir)] is [Limit(e, z, z0, dir).doit(deep=False)]
    (line 65). *)
Fixpoint limit (n : nat) (e z z0 : Expr) (dir : DirArg) {struct n}
    : result Expr :=
  match Limit_new e z z0 dir with
  | Ok self =>
      doit_body
        (match n with O => no_limit_call | S k => limit k end)
        (match n with O => no_heuristics_call | S k => heuristics k end)
        false self
  | Raise x => Raise x
  | OutOfFuel => OutOfFuel
  end
with heuristics (n : nat) (e z z0 : Expr) (dir : DirArg) {struct n}
    : result (option Expr) :=
  heuristics_body
    (match n with O => no_limit_call | S k => limit k end)
    (match n with O => no_heuristics_call | S k => heuristics k end)
    e z z0 dir.

(** The calls a body running with bound [n] can make. *)
Definition inner_limit (n : nat) :=
  match n with O => no_limit_call | S k => limit k end.
Definition inner_heuristics (n : nat) :=
  match n with O => no_heuristics_call | S k => heuristics k end.

(** The method [self.doit(deep=...)] *)
Definition doit (n : nat) (deep : bool) (self : LimitNode) : result Expr :=
  doit_body (inner_limit n) (inner_heuristics n) deep self.

End Limits.

(** ** Vocabulary of the statements *)

(** [ex] is an even, respectively odd, integer. *)
Definition is_even_integer (ex : Expr) : bool :=
  match ex with
  | Node (HInteger n) [] => Z.even n
  | _ => false
  end.

Definition is_odd_integer (ex : Expr) : bool :=
  match ex with
  | Node (HInteger n) [] => Z.odd n
  | _ => false
  end.

(** The solver's pole signal in a one-sided request: the exception
    [PoleError] or [ValueError], or the value not-a-number. *)
Definition pole_signal (attempt : result Expr) : bool :=
  match attempt with
  | Ok r => Expr_eqb r NaN
  | Raise x => caught_by [PoleError; ValueError] x
  | OutOfFuel => false
  end.

Definition heuristics_or_self (self : LimitNode)
    (h : result (option Expr)) : result Expr :=
  match h with
  | Ok (Some r) => Ok r
  | Ok None => Ok (to_expr self)
  | Raise x => Raise x
  | OutOfFuel => OutOfFuel
  end.

(** *** [Limit.free_symbols] (lines 169-175)

    The free symbols of the arguments come from the expression classes; a
    Python set is a list read through membership, and each access of
    [e.free_symbols] yields a set of its own. *)

Section FreeSymbols.

Variable free_symbols : Expr -> list Expr.

Definition Limit_free_symbols (self : LimitNode) : list Expr :=
  let isyms := free_symbols (l_expr self) in
  let isyms :=
    ListSet.set_diff Expr_eq_dec isyms (free_symbols (l_var self)) in
  ListSet.set_union Expr_eq_dec isyms (free_symbols (l_point self)).

End FreeSymbols.

(** No [Abs] anywhere in the expression *)
Fixpoint abs_free (e : Expr) {struct e} : bool :=
  match e with
  | Node h args => negb (is_Abs (Node h [])) && forallb abs_free args
  end.

(** An expression [heuristics] takes apart: [e.is_Mul or e.is_Add or
    e.is_Pow or e.is_Function] *)
Definition is_composite (e : Expr) : bool :=
  is_Mul e || is_Add e || is_Pow e || is_Function e.

Section Reach.

Context {A : Algebra}.

(** The limit of an argument that the loop of [heuristics] keeps: not an
    infinity of unknown finiteness, not an unevaluated node, not
    not-a-number (lines 86-100). *)
Definition kept_limit (l : Expr) : bool :=
  negb (has l Infinity && is_None (is_finite l))
  && negb (is_Limit l)
  && negb (Expr_eqb l NaN).

Variable lim : Expr -> Expr -> Expr -> DirArg -> result Expr.

(** Lines 194-262: what comes before the product path; control reaches
    line 264 with the current [(e, z, z0)]. *)
Definition before_product (deep : bool) (self : LimitNode)
    : flow Expr (Expr * Expr * Expr) :=
  ezz <- prelude lim deep self ;;
  let '(e, z, z0) := ezz in
  meromorphic_path e z z0 (l_dir self) ;;
  Next (factorial_rewrite e z0, z, z0).

End Reach.

(** One outcome is the other, or stands for recursion cut short. *)
Definition result_le {B} (a b : result B) : Prop :=
  a = OutOfFuel \/ a = b.

Definition flow_le {R B} (a b : flow R B) : Prop :=
  a = Exhausted \/ a = b.

(** ** A small instance of the interface

    Expressions in one variable built from numbers, sums, products and
    integer powers are expanded as Laurent polynomials, which gives their
    leading term and makes them meromorphic everywhere; the solver of last
    resort knows two functions with a singular point at the origin.  The
    instance is used to run the model on concrete requests. *)

Module Example.

Definition laurent : Type := list (Z * Q).

Fixpoint add_term (k : Z) (c : Q) (p : laurent) : laurent :=
  match p with
  | [] => [(k, c)]
  | (k', c') :: p' =>
      if k =? k' then (k, Qred (c + c')) :: p'
      else (k', c') :: add_term k c p'
  end.

Definition l_add (p q : laurent) : laurent :=
  fold_right (fun t acc => add_term (fst t) (snd t) acc) q p.

Definition l_mul (p q : laurent) : laurent :=
  fold_right
    (fun t acc =>
       l_add (map (fun u => (fst t + fst u, Qred (snd t * snd u))) q) acc)
    [] p.

Definition nonzero_terms (p : laurent) : laurent :=
  filter (fun t => negb (Qeq_bool (snd t) 0)) p.

Definition l_inv (p : laurent) : option laurent :=
  match nonzero_terms p with
  | [(k, c)] => Some [(- k, Qred (/ c))]
  | _ => None
  end.

Fixpoint l_pow_nat (p : laurent) (n : nat) : laurent :=
  match n with
  | O => [(0, 1%Q)]
  | S m => l_mul p (l_pow_nat p m)
  end.

Definition l_pow (p : laurent) (n : Z) : option laurent :=
  if 0 <=? n then Some (l_pow_nat p (Z.to_nat n))
  else
    match l_inv p with
    | Some q => Some (l_pow_nat q (Z.to_nat (- n)))
    | None => None
    end.

Definition l_lead (p : laurent) : option (Z * Q) :=
  fold_right
    (fun t acc =>
       match acc with
       | None => Some t
       | Some t' => if fst t <? fst t' then Some t else Some t'
       end)
    None (nonzero_terms p).

Definition lift2 (f : laurent -> laurent -> laurent)
    (a b : option laurent) : option laurent :=
  match a, b with
  | Some p, Some q => Some (f p q)
  | _, _ => None
  end.

Fixpoint expand (z e : Expr) {struct e} : option laurent :=
  if Expr_eqb e z then Some [(1, 1%Q)]
  else
    match e with
    | Node (HInteger n) [] => Some [(0, inject_Z n)]
    | Node (HRational p q) [] => Some [(0, Qmake p q)]
    | Node HAdd args =>
        fold_right (fun a acc => lift2 l_add (expand z a) acc) (Some []) args
    | Node HMul args =>
        fold_right (fun a acc => lift2 l_mul (expand z a) acc)
                   (Some [(0, 1%Q)]) args
    | Node HPow [b; Node (HInteger n) []] =>
        match expand z b with
        | Some p => l_pow p n
        | None => None
        end
    | _ => None
    end.

Definition of_Q (c : Q) : Expr :=
  let c := Qred c in
  match Qden c with
  | xH => Integer (Qnum c)
  | d => Node (HRational (Qnum c) d) []
  end.

Definition value_error : exn := mk_exn ValueError [].
Definition not_implemented : exn := mk_exn NotImplementedError [].

Definition ex_leadterm (e z : Expr) (cdir : Z) : result (Expr * Expr) :=
  match expand z e with
  | Some p =>
      match l_lead p with
      | Some (k, c) => Ok (of_Q c, Integer k)
      | None => Raise value_error
      end
  | None => Raise not_implemented
  end.

Definition ex_is_meromorphic (e z z0 : Expr) : option bool :=
  match expand z e with
  | Some _ => Some true
  | None => None
  end.

Fixpoint ex_subs (e old new : Expr) {struct e} : Expr :=
  if Expr_eqb e old then new
  else
    match e with
    | Node h args => Node h (map (fun a => ex_subs a old new) args)
    end.

Fixpoint ex_has (e pat : Expr) {struct e} : bool :=
  Expr_eqb e pat
  || match e with
     | Node _ args => existsb (fun a => ex_has a pat) args
     end.

(** The sign of a number or of a signed infinity *)
Definition sign_of (e : Expr) : option Z :=
  match e with
  | Node (HInteger n) [] => Some (Z.sgn n)
  | Node (HRational p _) [] => Some (Z.sgn p)
  | Node HInfinity [] => Some 1
  | Node HNegativeInfinity [] => Some (-1)
  | _ => None
  end.

Definition of_bool (b : bool) : Expr :=
  if b then BooleanTrue else Node HBooleanFalse [].

Definition ex_construct (h : Head) (args : list Expr) : Expr :=
  match h, args with
  | HFunction f, [a] =>
      if String.eqb f "sign" then
        match sign_of a with
        | Some s => Integer s
        | None => Node h args
        end
      else if String.eqb f "Abs" then
        match a with
        | Node HInfinity [] | Node HNegativeInfinity []
        | Node HComplexInfinity [] => Infinity
        | Node (HInteger n) [] => Integer (Z.abs n)
        | _ => Node h args
        end
      else Node h args
  | HMul, [Node (HInteger 1) []; b] => b
  | HMul, [Node HInfinity []; Node (HInteger n) []] =>
      if 0 <? n then Infinity
      else if n <? 0 then NegativeInfinity else NaN
  | HMul, [Node HNegativeInfinity []; Node (HInteger n) []] =>
      if 0 <? n then NegativeInfinity
      else if n <? 0 then Infinity else NaN
  | HRelational op, [a; Node (HInteger 0) []] =>
      match sign_of a with
      | Some s =>
          if String.eqb op "<" then of_bool (s <? 0)
          else if String.eqb op ">" then of_bool (0 <? s)
          else Node h args
      | None => Node h args
      end
  | _, _ => Node h args
  end.

Definition is_number (e : Expr) : bool :=
  match number_value e with Some _ => true | None => false end.

Definition is_signed_infinity (e : Expr) : bool :=
  Expr_eqb e Infinity || Expr_eqb e NegativeInfinity.

Definition ex_is_zero (e : Expr) : option bool :=
  match sign_of e with
  | Some s => Some (s =? 0)
  | None => None
  end.

Definition ex_is_real (e : Expr) : option bool :=
  if is_number e then Some true
  else if is_signed_infinity e then Some false
  else None.

Definition ex_is_extended_real (e : Expr) : option bool :=
  match sign_of e with
  | Some _ => Some true
  | None => None
  end.

Definition ex_is_extended_positive (e : Expr) : option bool :=
  match sign_of e with
  | Some s => Some (0 <? s)
  | None => None
  end.

Definition ex_is_finite (e : Expr) : option bool :=
  if is_number e then Some true
  else if is_signed_infinity e || Expr_eqb e ComplexInfinity then Some false
  else None.

(** The solver: [floor] jumps at the origin, and for the undefined function
    [f] it answers not-a-number on both sides; it gives up elsewhere. *)
Definition ex_gruntz (e z z0 : Expr) (dir : string) : result Expr :=
  match e with
  | Node (HFunction fn) [a] =>
      if Expr_eqb a z && Expr_eqb z0 Zero then
        if String.eqb fn "floor" then
          if String.eqb dir "+" then Ok Zero else Ok NegativeOne
        else if String.eqb fn "f" then Ok NaN
        else Raise (mk_exn PoleError [])
      else Raise (mk_exn PoleError [])
  | _ => Raise (mk_exn PoleError [])
  end.

#[export] Instance algebra : Algebra := {|
  construct := ex_construct;
  subs := ex_subs;
  has := ex_has;
  deep_doit := fun e => Ok e;
  sstr := fun e => class_name (func_of e);
  is_meromorphic := ex_is_meromorphic;
  leadterm := ex_leadterm;
  as_leading_term := fun _ _ => Raise not_implemented;
  gammasimp := fun e => Ok e;
  rewrite_factorial_gamma := fun e => e;
  factor_terms := fun e => e;
  together := fun e => e;
  factor := fun e => e;
  ratsimp := fun e => Ok e;
  simplify := fun e => e;
  is_zero := ex_is_zero;
  is_real := ex_is_real;
  is_extended_real := ex_is_extended_real;
  is_extended_positive := ex_is_extended_positive;
  is_finite := ex_is_finite;
  gruntz := ex_gruntz;
  fresh_index := fun _ => O
|}.

Definition x : Expr := Symbol "x".
Definition floor (a : Expr) : Expr := Node (HFunction "floor") [a].
Definition f (a : Expr) : Expr := Node (HFunction "f") [a].
(** [1/x], [1 + 1/x] and [(1 + 1/x)**x] *)
Definition inv_x : Expr := Node HPow [x; NegativeOne].
Definition one_plus_inv_x : Expr := Node HAdd [One; inv_x].
Definition compound : Expr := Node HPow [one_plus_inv_x; x].
(** [(1 + 1/x)**(1/x)] *)
Definition flat_power : Expr := Node HPow [one_plus_inv_x; inv_x].

(** The recursive calls of a [doit] that may nest one call deep *)
Definition lim1 : Expr -> Expr -> Expr -> DirArg -> result Expr :=
  inner_limit 1.
Definition heur1 : Expr -> Expr -> Expr -> DirArg -> result (option Expr) :=
  inner_heuristics 1.

(** [x**2], [x**3], [x < 1] and [f(x < 1)] *)
Definition square : Expr := Node HPow [x; Integer 2].
Definition cube : Expr := Node HPow [x; Integer 3].
Definition below_one : Expr := Node (HRelational "<") [x; One].
Definition f_below_one : Expr := f below_one.
(** [f(1/x) + x], [(1/x)*x] before evaluation, [x - x] before evaluation,
    [x*f(x)], [O(1/x, x)], [x**oo], [x**x], [cos(x)], [g(x)] and
    [(x + 2)**(x + 3)] *)
Definition f_inv_plus_x : Expr := Node HAdd [f inv_x; x].
Definition inv_times_x : Expr := Node HMul [inv_x; x].
Definition x_minus_x : Expr := Node HAdd [x; Node HMul [NegativeOne; x]].
Definition x_times_f : Expr := Node HMul [x; f x].
Definition order_inv_x : Expr := Node HOrder [inv_x; x].
Definition x_to_infinity : Expr := Node HPow [x; Infinity].
Definition x_to_x : Expr := Node HPow [x; x].
Definition cos_x : Expr := Node (HFunction "cos") [x].
Definition g_x : Expr := Node (HFunction "g") [x].
Definition shifted_power : Expr :=
  Node HPow [Node HAdd [x; Integer 2]; Node HAdd [x; Integer 3]].

(** The free symbols of an expression without binders *)
Fixpoint ex_free_symbols (e : Expr) {struct e} : list Expr :=
  match e with
  | Node (HSymbol _) [] => [e]
  | Node _ args =>
      fold_right
        (fun a acc => ListSet.set_union Expr_eq_dec (ex_free_symbols a) acc)
        [] args
  end.

(** *** A second instance

    It also evaluates integer powers of integers, expands [log(b)] to first
    order where [b] tends to [1], reads meromorphy off the expansion at the
    point, and its solver knows that [cos] tends to [1] at the origin. *)

Definition no_negative_power (p : laurent) : bool :=
  forallb (fun t => 0 <=? fst t) (nonzero_terms p).

Definition constant_term (p : laurent) : Q :=
  fold_right (fun t acc => if fst t =? 0 then Qred (snd t + acc) else acc)
             0%Q p.

Fixpoint expand_log (z e : Expr) {struct e} : option laurent :=
  if Expr_eqb e z then Some [(1, 1%Q)]
  else
    match e with
    | Node (HInteger n) [] => Some [(0, inject_Z n)]
    | Node (HRational p q) [] => Some [(0, Qmake p q)]
    | Node HAdd args =>
        fold_right (fun a acc => lift2 l_add (expand_log z a) acc)
                   (Some []) args
    | Node HMul args =>
        fold_right (fun a acc => lift2 l_mul (expand_log z a) acc)
                   (Some [(0, 1%Q)]) args
    | Node HPow [b; Node (HInteger n) []] =>
        match expand_log z b with
        | Some p => l_pow p n
        | None => None
        end
    | Node (HFunction fn) [b] =>
        if String.eqb fn "log" then
          match expand_log z b with
          | Some p =>
              if no_negative_power p && Qeq_bool (constant_term p) 1
              then Some (l_add p [(0, (-1)%Q)])
              else None
          | None => None
          end
        else None
    | _ => None
    end.

Definition ser_construct (h : Head) (args : list Expr) : Expr :=
  match h, args with
  | HPow, [Node (HInteger a) []; Node (HInteger b) []] =>
      if 0 <=? b then Integer (a ^ b) else ex_construct h args
  | _, _ => ex_construct h args
  end.

Definition ser_leadterm (e z : Expr) (cdir : Z) : result (Expr * Expr) :=
  match expand_log z e with
  | Some p =>
      match l_lead p with
      | Some (k, c) => Ok (of_Q c, Integer k)
      | None => Raise value_error
      end
  | None => Raise not_implemented
  end.

Definition ser_is_meromorphic (e z z0 : Expr) : option bool :=
  let shifted :=
    if Expr_eqb (ser_construct (HFunction "Abs") [z0]) Infinity
    then ex_subs e z (Node HMul [NegativeOne; Node HPow [z; NegativeOne]])
    else ex_subs e z (Node HAdd [z; z0]) in
  match expand_log z shifted with
  | Some _ => Some true
  | None => None
  end.

Definition ser_gruntz (e z z0 : Expr) (dir : string) : result Expr :=
  match e with
  | Node (HFunction fn) [a] =>
      if Expr_eqb a z && Expr_eqb z0 Zero && String.eqb fn "cos"
      then Ok One
      else ex_gruntz e z z0 dir
  | _ => ex_gruntz e z z0 dir
  end.

Definition series_algebra : Algebra := {|
  construct := ser_construct;
  subs := ex_subs;
  has := ex_has;
  deep_doit := fun e => Ok e;
  sstr := fun e => class_name (func_of e);
  is_meromorphic := ser_is_meromorphic;
  leadterm := ser_leadterm;
  as_leading_term := fun _ _ => Raise not_implemented;
  gammasimp := fun e => Ok e;
  rewrite_factorial_gamma := fun e => e;
  factor_terms := fun e => e;
  together := fun e => e;
  factor := fun e => e;
  ratsimp := fun e => Ok e;
  simplify := fun e => e;
  is_zero := ex_is_zero;
  is_real := ex_is_real;
  is_extended_real := ex_is_extended_real;
  is_extended_positive := ex_is_extended_positive;
  is_finite := ex_is_finite;
  gruntz := ser_gruntz;
  fresh_index := fun _ => O
|}.

(** *** A third instance

    The symbol [n] stands for a negative odd integer: [n < 0] evaluates to
    true and [n > 0] to false, a power [b**n] of an expandable base is
    meromorphic, and the leading term of [b**n] for a base with leading
    term [z] is [z**n], of coefficient [1] and exponent [n]. *)







End Example.

(** ** Properties *)

Lemma Expr_eqb_eq (a b : Expr) : Expr_eqb a b = true <-> a = b.
Proof.
  unfold Expr_eqb; destruct (Expr_eq_dec a b); split; congruence.
Qed.

Lemma Expr_eqb_refl (a : Expr) : Expr_eqb a a = true.
Proof. now apply Expr_eqb_eq. Qed.

Lemma Expr_eqb_neq (a b : Expr) : a <> b -> Expr_eqb a b = false.
Proof.
  intros H; unfold Expr_eqb; destruct (Expr_eq_dec a b); congruence.
Qed.

Lemma Expr_eqb_false (a b : Expr) : Expr_eqb a b = false -> a <> b.
Proof.
  unfold Expr_eqb; destruct (Expr_eq_dec a b); congruence.
Qed.

Section Properties.

Context {A : Algebra}.

(** *** The constructor *)

Lemma Limit_new_at_infinity (e z : Expr) (dir : DirArg) :
  Limit_new e z Infinity dir = Ok (mkLimit e z Infinity (Symbol "-")).
Proof. reflexivity. Qed.

Lemma Limit_new_at_negative_infinity (e z : Expr) (dir : DirArg) :
  Limit_new e z NegativeInfinity dir
  = Ok (mkLimit e z NegativeInfinity (Symbol "+")).
Proof. reflexivity. Qed.

(** Away from the signed infinities the direction argument is used as
    given. *)
Lemma Limit_new_finite (e z z0 : Expr) (dir : DirArg) :
  z0 <> Infinity -> z0 <> NegativeInfinity ->
  Limit_new e z z0 dir =
  match dir with
  | DString s =>
      if str_in s valid_dirs then Ok (mkLimit e z z0 (Symbol s))
      else Raise (invalid_direction (Symbol s))
  | DBasic d =>
      if is_Symbol d then
        if str_in (str d) valid_dirs then Ok (mkLimit e z z0 d)
        else Raise (invalid_direction d)
      else Raise (wrong_type (class_name (func_of d)))
  | DObject c => Raise (wrong_type c)
  end.
Proof.
  intros Hp Hn. unfold Limit_new.
  rewrite (Expr_eqb_neq _ _ Hp), (Expr_eqb_neq _ _ Hn).
  destruct dir as [s | d | c]; cbn [str Symbol].
  - now destruct (str_in s valid_dirs).
  - destruct (is_Symbol d); [|reflexivity].
    now destruct (str_in (str d) valid_dirs).
  - reflexivity.
Qed.

(** A node that was built carries the arguments it was built from and a
    valid direction. *)
Lemma Limit_new_fields (e z z0 : Expr) (dir : DirArg) (self : LimitNode) :
  Limit_new e z z0 dir = Ok self ->
  l_expr self = e /\ l_var self = z /\ l_point self = z0
  /\ str_in (str (l_dir self)) valid_dirs = true.
Proof.
  unfold Limit_new.
  set (d' := if Expr_eqb z0 Infinity then _ else _).
  destruct d' as [s | d | c]; try discriminate.
  - destruct (str_in (str (Symbol s)) valid_dirs) eqn:E; cbn; try discriminate.
    intros [= <-]; cbn; auto.
  - destruct (is_Symbol d); try discriminate.
    destruct (str_in (str d) valid_dirs) eqn:E; cbn; try discriminate.
    intros [= <-]; cbn; auto.
Qed.

(** [limit] builds the node and evaluates it with [deep=False]. *)
Lemma limit_unfold (n : nat) (e z z0 : Expr) (dir : DirArg) :
  limit n e z z0 dir =
  match Limit_new e z z0 dir with
  | Ok self => doit n false self
  | Raise x => Raise x
  | OutOfFuel => OutOfFuel
  end.
Proof. destruct n; reflexivity. Qed.

Lemma heuristics_unfold (n : nat) (e z z0 : Expr) (dir : DirArg) :
  heuristics n e z z0 dir
  = heuristics_body (inner_limit n) (inner_heuristics n) e z z0 dir.
Proof. destruct n; reflexivity. Qed.

(** *** The guard on the point and the trivial answers *)

Lemma doit_body_complex_infinity lim heur (deep : bool) (self : LimitNode) :
  l_point self = ComplexInfinity ->
  doit_body lim heur deep self = Raise unsupported_point.
Proof.
  intros H. unfold doit_body, fast_paths, before_power, prelude.
  now rewrite H, Expr_eqb_refl.
Qed.

Lemma doit_body_trivial lim heur (deep : bool) (self : LimitNode)
    (e z z0 : Expr) :
  l_point self <> ComplexInfinity ->
  normalize_args deep self = Ok (e, z, z0) ->
  (e = z -> doit_body lim heur deep self = Ok z0)
  /\ (e <> z -> has e z = false -> doit_body lim heur deep self = Ok e).
Proof.
  intros Hp Hn. unfold doit_body, fast_paths, before_power, prelude.
  rewrite (Expr_eqb_neq _ _ Hp), Hn. cbn [call bind].
  split.
  - intros ->. now rewrite Expr_eqb_refl.
  - intros Hne Hhas. now rewrite (Expr_eqb_neq _ _ Hne), Hhas.
Qed.

(** C4: a limit at complex infinity raises the unsupported-target failure
    ([NotImplementedError]) for every expression, variable and direction
    argument from which a node can be built.  The failure is the result of
    the entry function and of [doit] with either value of [deep]; it does
    not depend on what the recursive calls [lim] and [heur] would answer nor
    on the expression, so it precedes the trivial-identity check and every
    strategy, and nothing on the way out handles it. *)
Theorem complex_infinity_unsupported (n : nat) lim heur (deep : bool)
    (e z : Expr) (dir : DirArg) (self : LimitNode) :
  Limit_new e z ComplexInfinity dir = Ok self ->
  limit n e z ComplexInfinity dir = Raise unsupported_point
  /\ doit_body lim heur deep self = Raise unsupported_point
  /\ kind unsupported_point = NotImplementedError.
Proof.
  intros Hnew.
  destruct (Limit_new_fields _ _ _ _ _ Hnew) as (_ & _ & Hp & _).
  repeat split.
  - rewrite limit_unfold, Hnew. now apply doit_body_complex_infinity.
  - now apply doit_body_complex_infinity.
Qed.

(** C5: for every point other than complex infinity and every direction
    argument from which a node can be built, the entry function returns the
    point when the expression is the limit variable, and returns the
    expression itself when the variable does not occur in it.  The same
    holds for [doit] on the constructed node, read on the arguments as
    [doit] uses them (evaluated first when [deep] is set). *)
Theorem trivial_limits (n : nat) lim heur (deep : bool)
    (e z z0 : Expr) (dir : DirArg) (self : LimitNode) (e' z' z0' : Expr) :
  Limit_new e z z0 dir = Ok self ->
  z0 <> ComplexInfinity ->
  normalize_args deep self = Ok (e', z', z0') ->
  (e = z -> limit n e z z0 dir = Ok z0)
  /\ (e <> z -> has e z = false -> limit n e z z0 dir = Ok e)
  /\ (e' = z' -> doit_body lim heur deep self = Ok z0')
  /\ (e' <> z' -> has e' z' = false ->
      doit_body lim heur deep self = Ok e').
Proof.
  intros Hnew Hz0 Hnorm.
  destruct (Limit_new_fields _ _ _ _ _ Hnew) as (He & Hz & Hp & _).
  assert (Hp' : l_point self <> ComplexInfinity) by congruence.
  assert (Hshallow : normalize_args false self = Ok (e, z, z0))
    by (cbn; congruence).
  destruct (doit_body_trivial (inner_limit n) (inner_heuristics n)
              false self e z z0 Hp' Hshallow) as [Hid Hconst].
  destruct (doit_body_trivial lim heur deep self e' z' z0' Hp' Hnorm)
    as [Hid' Hconst'].
  rewrite limit_unfold, Hnew. unfold doit. auto.
Qed.

(** C8: every node built by the constructor whose point is positive
    infinity has direction [-], and every one whose point is negative
    infinity has direction [+], whatever direction argument was supplied. *)
Theorem infinite_point_forces_direction (e z z0 : Expr) (dir : DirArg)
    (self : LimitNode) :
  Limit_new e z z0 dir = Ok self ->
  (l_point self = Infinity -> l_dir self = Symbol "-")
  /\ (l_point self = NegativeInfinity -> l_dir self = Symbol "+").
Proof.
  intros Hnew.
  destruct (Limit_new_fields _ _ _ _ _ Hnew) as (_ & _ & Hp & _).
  split; intros H; rewrite H in Hp; subst z0.
  - rewrite Limit_new_at_infinity in Hnew. now injection Hnew as <-.
  - rewrite Limit_new_at_negative_infinity in Hnew. now injection Hnew as <-.
Qed.

(** C9: a direction string other than [+], [-] and [+-] makes the
    constructor, and with it the entry function, raise the
    invalid-direction error ([ValueError]) whatever the recursion bound,
    that is before any evaluation; except at a point that is positive or
    negative infinity, where the direction is forced first and the node is
    built. *)
Theorem invalid_direction_string (n : nat) (e z z0 : Expr) (s : string) :
  str_in s valid_dirs = false ->
  (z0 <> Infinity -> z0 <> NegativeInfinity ->
   Limit_new e z z0 (DString s) = Raise (invalid_direction (Symbol s))
   /\ limit n e z z0 (DString s) = Raise (invalid_direction (Symbol s))
   /\ kind (invalid_direction (Symbol s)) = ValueError)
  /\ Limit_new e z Infinity (DString s)
     = Ok (mkLimit e z Infinity (Symbol "-"))
  /\ Limit_new e z NegativeInfinity (DString s)
     = Ok (mkLimit e z NegativeInfinity (Symbol "+")).
Proof.
  intros Hs. repeat split.
  - rewrite Limit_new_finite by assumption. now rewrite Hs.
  - rewrite limit_unfold, Limit_new_finite by assumption. now rewrite Hs.
Qed.

(** C10, as the constructor has it: when the point is neither positive nor
    negative infinity, a symbol is accepted as direction and validated
    against the same set as a string, and a direction of any other type
    raises [TypeError], which is not the invalid-direction [ValueError];
    when the point is positive or negative infinity the direction argument
    is overwritten before it is looked at, so a value of any type is
    accepted. *)
Theorem direction_argument_types (e z z0 : Expr) :
  z0 <> Infinity -> z0 <> NegativeInfinity ->
  (forall s, Limit_new e z z0 (DBasic (Symbol s))
             = Limit_new e z z0 (DString s))
  /\ (forall s, str_in s valid_dirs = true ->
        Limit_new e z z0 (DBasic (Symbol s))
        = Ok (mkLimit e z z0 (Symbol s)))
  /\ (forall s, str_in s valid_dirs = false ->
        Limit_new e z z0 (DBasic (Symbol s))
        = Raise (invalid_direction (Symbol s)))
  /\ (forall c, Limit_new e z z0 (DObject c) = Raise (wrong_type c)
                /\ kind (wrong_type c) = TypeError)
  /\ (forall d, is_Symbol d = false ->
        Limit_new e z z0 (DBasic d)
        = Raise (wrong_type (class_name (func_of d))))
  /\ (forall dir,
        Limit_new e z Infinity dir = Ok (mkLimit e z Infinity (Symbol "-"))
        /\ Limit_new e z NegativeInfinity dir
           = Ok (mkLimit e z NegativeInfinity (Symbol "+"))).
Proof.
  intros Hp Hn. repeat split.
  - intros s. now rewrite !Limit_new_finite by assumption.
  - intros s Hs. rewrite Limit_new_finite by assumption.
    cbn [is_Symbol func_of Symbol str]. now rewrite Hs.
  - intros s Hs. rewrite Limit_new_finite by assumption.
    cbn [is_Symbol func_of Symbol str]. now rewrite Hs.
  - now rewrite Limit_new_finite by assumption.
  - intros d Hd. rewrite Limit_new_finite by assumption. now rewrite Hd.
Qed.

(** *** The meromorphic fast path *)

Lemma land_1_parity (n : Z) : Z.land n 1 = if Z.odd n then 1 else 0.
Proof.
  change 1 with (Z.ones 1) at 1.
  rewrite Z.land_ones by lia. change (2 ^ 1) with 2. apply Zmod_odd.
Qed.

Lemma int_of_integer (n : Z) : int (Integer n) = Ok n.
Proof.
  unfold int, int_of_Q; cbn. now rewrite Z.quot_1_r.
Qed.

Lemma Qle_bool_false (x y : Q) : (y < x)%Q -> Qle_bool x y = false.
Proof.
  intros H. destruct (Qle_bool x y) eqn:E; [|reflexivity].
  apply Qle_bool_iff in E. exfalso. exact (Qlt_not_le _ _ H E).
Qed.

Lemma Qle_bool_true (x y : Q) : (x <= y)%Q -> Qle_bool x y = true.
Proof. apply Qle_bool_iff. Qed.

(** What the leading term decides once [leadterm] has answered with a
    numeric exponent. *)
Lemma meromorphic_path_table (e z z0 dir coeff ex : Expr) (q : Q) :
  is_meromorphic e z z0 = Some true ->
  leadterm (shift e z z0) z (cdir_of dir) = Ok (coeff, ex) ->
  number_value ex = Some q ->
  ((0 < q)%Q -> meromorphic_path e z z0 dir = Return Zero)
  /\ (ex = Zero -> meromorphic_path e z z0 dir = Return coeff)
  /\ ((q < 0)%Q -> str dir = "+" \/ is_even_integer ex = true ->
      meromorphic_path e z z0 dir = Return (mul Infinity (sign coeff)))
  /\ ((q < 0)%Q -> str dir = "-" -> is_odd_integer ex = true ->
      meromorphic_path e z z0 dir
      = Return (mul NegativeInfinity (sign coeff)))
  /\ ((q < 0)%Q -> str dir = "+-" -> is_odd_integer ex = true ->
      meromorphic_path e z z0 dir = Return ComplexInfinity).
Proof.
  intros Hm Hl Hq. unfold meromorphic_path, truth_gt0.
  rewrite Hm, Hl, Hq. cbn [truthy call bind].
  assert (Hneg : (q < 0)%Q ->
            negb (Qle_bool q 0) = false /\ Expr_eqb ex Zero = false).
  { intros Hlt. split.
    - rewrite Qle_bool_true; [reflexivity | now apply Qlt_le_weak].
    - apply Expr_eqb_neq. intros ->. cbn in Hq. injection Hq as <-.
      now apply Qlt_irrefl in Hlt. }
  repeat split.
  - intros Hpos. now rewrite Qle_bool_false.
  - intros ->. cbn in Hq. injection Hq as <-. cbn. reflexivity.
  - intros Hlt Hcase. destruct (Hneg Hlt) as [-> ->].
    destruct (String.eqb (str dir) "+") eqn:Ed; [reflexivity|].
    destruct Hcase as [Hd | Hev].
    + rewrite Hd in Ed. discriminate.
    + destruct ex as [[] [|]]; try discriminate. cbn in Hev.
      fold (Integer n). rewrite int_of_integer. cbn [call bind].
      rewrite land_1_parity, <- Z.negb_even, Hev. reflexivity.
  - intros Hlt Hd Hodd. destruct (Hneg Hlt) as [-> ->].
    rewrite Hd. cbn [String.eqb Ascii.eqb Bool.eqb].
    destruct ex as [[] [|]]; try discriminate. cbn in Hodd.
    fold (Integer n). rewrite int_of_integer. cbn [call bind].
    rewrite land_1_parity, Hodd. reflexivity.
  - intros Hlt Hd Hodd. destruct (Hneg Hlt) as [-> ->].
    rewrite Hd. cbn [String.eqb Ascii.eqb Bool.eqb].
    destruct ex as [[] [|]]; try discriminate. cbn in Hodd.
    fold (Integer n). rewrite int_of_integer. cbn [call bind].
    rewrite land_1_parity, Hodd. reflexivity.
Qed.

Lemma doit_body_meromorphic_return lim heur (deep : bool)
    (self : LimitNode) (e z z0 v : Expr) :
  prelude lim deep self = Next (e, z, z0) ->
  meromorphic_path e z z0 (l_dir self) = Return v ->
  doit_body lim heur deep self = Ok v.
Proof.
  intros Hp Hm. unfold doit_body, fast_paths, before_power.
  rewrite Hp. cbn [bind]. now rewrite Hm.
Qed.


(** *** The general fallback *)

Lemma doit_body_fallback lim heur (deep : bool) (self : LimitNode)
    (e z z0 : Expr) :
  fast_paths lim deep self = Next (e, z, z0) ->
  doit_body lim heur deep self = finish (general_fallback heur self e z z0).
Proof.
  intros H. unfold doit_body. now rewrite H.
Qed.

(** C1: in a bidirectional request that reaches the general fallback, when
    the solver answers on the right and on the left and the two answers
    differ, [doit] raises the non-existence error ([ValueError]) whose
    message carries both one-sided values; this holds whatever the
    term-wise heuristic [heur] would answer, and the result is neither the
    heuristic's nor the unevaluated node. *)
Theorem one_sided_limits_disagree lim heur (deep : bool) (self : LimitNode)
    (e z z0 r l : Expr) :
  fast_paths lim deep self = Next (e, z, z0) ->
  str (l_dir self) = "+-" ->
  gruntz e z z0 "+" = Ok r ->
  gruntz e z z0 "-" = Ok l ->
  l <> r ->
  doit_body lim heur deep self = Raise (no_limit l r)
  /\ kind (no_limit l r) = ValueError
  /\ In (Fmt l) (message (no_limit l r))
  /\ In (Fmt r) (message (no_limit l r)).
Proof.
  intros Hf Hd Hr Hl Hne. split.
  - rewrite (doit_body_fallback _ _ _ _ _ _ _ Hf).
    unfold general_fallback, solver_attempt.
    rewrite Hd. cbn [String.eqb Ascii.eqb Bool.eqb].
    rewrite Hr, Hl, (Expr_eqb_neq _ _ Hne). reflexivity.
  - cbn. intuition.
Qed.

(** X21: in a one-sided request a pole signal of the solver hands over to
    the heuristic, on the same arguments, and "no result" there yields the
    node itself. *)
Lemma one_sided_pole_falls_back lim heur (deep : bool) (self : LimitNode)
    (e z z0 : Expr) :
  fast_paths lim deep self = Next (e, z, z0) ->
  str (l_dir self) <> "+-" ->
  pole_signal (gruntz e z z0 (str (l_dir self))) = true ->
  doit_body lim heur deep self
  = heuristics_or_self self (heur e z z0 (DBasic (l_dir self))).
Proof.
  intros Hf Hd Hs.
  rewrite (doit_body_fallback _ _ _ _ _ _ _ Hf).
  unfold general_fallback, solver_attempt.
  apply String.eqb_neq in Hd. rewrite Hd.
  destruct (gruntz e z z0 (str (l_dir self))) as [r | x |];
    cbn in Hs; try discriminate.
  - rewrite Hs. cbn. now destruct (heur _ _ _ _) as [[|] | |].
  - cbn in *. rewrite Hs. cbn. now destruct (heur _ _ _ _) as [[|] | |].
Qed.

(** X22: in a bidirectional request the same holds when one of the two
    calls of the solver raises the signal. *)
Lemma two_sided_raise_falls_back lim heur (deep : bool) (self : LimitNode)
    (e z z0 : Expr) (x : exn) :
  fast_paths lim deep self = Next (e, z, z0) ->
  str (l_dir self) = "+-" ->
  caught_by [PoleError; ValueError] x = true ->
  gruntz e z z0 "+" = Raise x
  \/ (exists r, gruntz e z z0 "+" = Ok r /\ gruntz e z z0 "-" = Raise x) ->
  doit_body lim heur deep self
  = heuristics_or_self self (heur e z z0 (DBasic (l_dir self))).
Proof.
  intros Hf Hd Hx Hg.
  rewrite (doit_body_fallback _ _ _ _ _ _ _ Hf).
  unfold general_fallback, solver_attempt.
  rewrite Hd. cbn [String.eqb Ascii.eqb Bool.eqb].
  destruct Hg as [-> | (r & -> & ->)]; rewrite Hx; cbn;
    now destruct (heur _ _ _ _) as [[|] | |].
Qed.

(** C3, where the code departs from it: in a bidirectional request that
    reaches the general fallback, when the solver answers not-a-number on
    both sides (so the two answers agree), the pole signal raised for it is
    raised again by the handler, because [l] has been assigned; [doit]
    ends in [PoleError], whatever the heuristic would answer. *)
Theorem two_sided_nan_escapes lim heur (deep : bool) (self : LimitNode)
    (e z z0 : Expr) :
  fast_paths lim deep self = Next (e, z, z0) ->
  str (l_dir self) = "+-" ->
  gruntz e z z0 "+" = Ok NaN ->
  gruntz e z z0 "-" = Ok NaN ->
  doit_body lim heur deep self = Raise pole
  /\ kind pole = PoleError.
Proof.
  intros Hf Hd Hr Hl. split; [|reflexivity].
  rewrite (doit_body_fallback _ _ _ _ _ _ _ Hf).
  unfold general_fallback, solver_attempt.
  rewrite Hd. cbn [String.eqb Ascii.eqb Bool.eqb].
  rewrite Hr, Hl. reflexivity.
Qed.

(** *** The power fast path *)

(** C6: when [doit] reaches the power path with [b1**e1], the expression
    holds no infinity or not-a-number, the log transform does not apply
    ([e1*log(b1)] is not known to be meromorphic at the point) and the
    limit of the base is [1]: if the limit of the exponent is positive or
    negative infinity the result is [exp] of the limit of [e1*(b1 - 1)]; if
    it is a finite real value the result is [1]. *)
Theorem power_of_base_one lim heur (deep : bool) (self : LimitNode)
    (b1 e1 : Expr) (rest : list Expr) (z z0 ex_lim : Expr) :
  before_power lim deep self = Next (Node HPow (b1 :: e1 :: rest), z, z0) ->
  has_any (Node HPow (b1 :: e1 :: rest))
    [Infinity; NegativeInfinity; ComplexInfinity; NaN] = false ->
  truthy (is_meromorphic (mul e1 (log b1)) z z0) = false ->
  lim e1 z z0 (DString "+") = Ok ex_lim ->
  lim b1 z z0 (DString "+") = Ok One ->
  (forall res,
     ex_lim = Infinity \/ ex_lim = NegativeInfinity ->
     lim (mul e1 (sub1 b1)) z z0 (DString "+") = Ok res ->
     doit_body lim heur deep self = Ok (exp res))
  /\ (ex_lim <> Infinity -> ex_lim <> NegativeInfinity ->
      is_real ex_lim = Some true ->
      doit_body lim heur deep self = Ok One).
Proof.
  intros Hb Hhas Hm Hex Hbase.
  unfold doit_body, fast_paths. rewrite Hb. cbn [bind].
  unfold power_path. cbn [is_Pow func_of args_of].
  rewrite Hhas, Hm, Hex. cbn [call bind]. rewrite Hbase. cbn [call bind].
  rewrite Expr_eqb_refl. split.
  - intros res Hinf Hres.
    assert (E : Expr_eqb ex_lim Infinity
                || Expr_eqb ex_lim NegativeInfinity = true).
    { destruct Hinf as [-> | ->]; rewrite Expr_eqb_refl;
        [reflexivity | apply orb_true_r]. }
    rewrite E, Hres. reflexivity.
  - intros Hp Hn Hreal.
    rewrite (Expr_eqb_neq _ _ Hp), (Expr_eqb_neq _ _ Hn), Hreal.
    reflexivity.
Qed.

(** *** The term-wise heuristic at an infinite point *)

(** C7: at a point of infinite magnitude, [heuristics] is decided by one
    call of the entry function, on the expression with the variable
    replaced by its reciprocal, at the point [0], from the side [+] when
    the point is positive infinity and [-] when it is negative infinity.
    If that call returns an unevaluated node the heuristic has no result,
    otherwise it returns that value, an exception of the call is passed on,
    and a result of the heuristic is never an unevaluated node.  Nothing
    else is consulted: any other pair of functions that answers this one
    call alike gives the same outcome. *)
Theorem heuristics_at_infinite_point (n : nat) (e z z0 : Expr)
    (dir : DirArg) :
  infinite_magnitude z0 = true ->
  let side := if Expr_eqb z0 Infinity then "+" else "-" in
  let inner := limit n (subs e z (rdiv 1 z)) z Zero (DString side) in
  (z0 = Infinity -> side = "+")
  /\ (z0 = NegativeInfinity -> side = "-")
  /\ (forall rv, inner = Ok rv -> is_Limit rv = true ->
        heuristics (S n) e z z0 dir = Ok None)
  /\ (forall rv, inner = Ok rv -> is_Limit rv = false ->
        heuristics (S n) e z z0 dir = Ok (Some rv))
  /\ (forall x, inner = Raise x -> heuristics (S n) e z z0 dir = Raise x)
  /\ (forall v, heuristics (S n) e z z0 dir = Ok (Some v) ->
        is_Limit v = false)
  /\ (forall lim' heur',
        lim' (subs e z (rdiv 1 z)) z Zero (DString side) = inner ->
        heuristics_body lim' heur' e z z0 dir
        = heuristics (S n) e z z0 dir).
Proof.
  intros Hinf side inner.
  assert (Hbody : forall lim' heur',
            lim' (subs e z (rdiv 1 z)) z Zero (DString side) = inner ->
            heuristics_body lim' heur' e z z0 dir =
            match inner with
            | Ok rv => if is_Limit rv then Ok None else Ok (Some rv)
            | Raise x => Raise x
            | OutOfFuel => OutOfFuel
            end).
  { intros lim' heur' H. unfold heuristics_body. rewrite Hinf.
    fold side. rewrite H.
    destruct inner as [rv | x |]; cbn; [|reflexivity..].
    now destruct (is_Limit rv). }
  assert (Hrec : heuristics (S n) e z z0 dir =
            match inner with
            | Ok rv => if is_Limit rv then Ok None else Ok (Some rv)
            | Raise x => Raise x
            | OutOfFuel => OutOfFuel
            end).
  { rewrite heuristics_unfold. now apply Hbody. }
  repeat split.
  - intros ->. reflexivity.
  - intros ->. reflexivity.
  - intros rv Hrv Hl. now rewrite Hrec, Hrv, Hl.
  - intros rv Hrv Hl. now rewrite Hrec, Hrv, Hl.
  - intros x Hx. now rewrite Hrec, Hx.
  - intros v. rewrite Hrec.
    destruct inner as [rv | x |]; try discriminate.
    destruct (is_Limit rv) eqn:E; try discriminate.
    now intros [= <-].
  - intros lim' heur' H. rewrite Hrec. now apply Hbody.
Qed.

End Properties.

(** ** Concrete runs

    The theorems above at requests of the instance [Example.algebra]. *)

Import Example.

(** [Limit(x, x, zoo)] fails, through [limit] and through [doit]. *)
Lemma complex_infinity_unsupported_witness :
  limit 1 x x ComplexInfinity (DString "+") = Raise unsupported_point
  /\ doit_body lim1 heur1 true (mkLimit x x ComplexInfinity (Symbol "+"))
     = Raise unsupported_point
  /\ kind unsupported_point = NotImplementedError.
Proof.
  apply (complex_infinity_unsupported 1 lim1 heur1 true x x (DString "+")).
  reflexivity.
Defined.

(** [limit(x, x, 0)] is [0] and [limit(5, x, 0)] is [5]. *)
Lemma trivial_limits_witness :
  limit 0 x x Zero (DString "+") = Ok Zero
  /\ limit 0 (Integer 5) x Zero (DString "+-") = Ok (Integer 5).
Proof.
  split.
  - refine (proj1 (trivial_limits 0 lim1 heur1 false x x Zero (DString "+")
                     (mkLimit x x Zero (Symbol "+")) x x Zero
                     eq_refl _ eq_refl) eq_refl).
    discriminate.
  - refine (proj1 (proj2 (trivial_limits 0 lim1 heur1 false (Integer 5) x
                            Zero (DString "+-")
                            (mkLimit (Integer 5) x Zero (Symbol "+-"))
                            (Integer 5) x Zero eq_refl _ eq_refl)) _ eq_refl);
      discriminate.
Defined.

(** [Limit(1/x, x, oo, dir="+")] is built with direction [-]. *)
Lemma infinite_point_forces_direction_witness :
  exists self,
    Limit_new inv_x x Infinity (DString "+") = Ok self
    /\ l_dir self = Symbol "-".
Proof.
  exists (mkLimit inv_x x Infinity (Symbol "-")).
  split; [reflexivity|].
  exact (proj1 (infinite_point_forces_direction inv_x x Infinity
                  (DString "+") (mkLimit inv_x x Infinity (Symbol "-"))
                  eq_refl) eq_refl).
Defined.

(** [limit(1/x, x, 0, "left")] fails at construction; at [oo] it does not. *)
Lemma invalid_direction_string_witness :
  limit 3 inv_x x Zero (DString "left")
  = Raise (invalid_direction (Symbol "left"))
  /\ Limit_new inv_x x Infinity (DString "left")
     = Ok (mkLimit inv_x x Infinity (Symbol "-")).
Proof.
  pose proof (invalid_direction_string 3 inv_x x Zero "left" eq_refl)
    as (Hfin & _).
  pose proof (invalid_direction_string 3 inv_x x Infinity "left" eq_refl)
    as (_ & Hinf & _).
  split; [|exact Hinf].
  apply Hfin; discriminate.
Defined.

(** A symbol is read like a string and an [int] is refused at the point
    [0]. *)
Lemma direction_argument_types_witness :
  Limit_new inv_x x Zero (DBasic (Symbol "-"))
  = Ok (mkLimit inv_x x Zero (Symbol "-"))
  /\ Limit_new inv_x x Zero (DObject "int") = Raise (wrong_type "int").
Proof.
  assert (Hp : Zero <> Infinity) by discriminate.
  assert (Hn : Zero <> NegativeInfinity) by discriminate.
  destruct (direction_argument_types inv_x x Zero Hp Hn)
    as (_ & Hsym & _ & Hobj & _).
  split.
  - now apply Hsym.
  - apply Hobj.
Defined.

(** At the point [oo] an [int] passed as direction is not refused: it is
    not so that a direction value of any other type raises a type error. *)
Lemma direction_type_error_counterexample :
  Limit_new x x Infinity (DObject "int")
  = Ok (mkLimit x x Infinity (Symbol "-"))
  /\ ~ (forall e z z0 c,
          exists m, Limit_new e z z0 (DObject c) = Raise (mk_exn TypeError m)).
Proof.
  split; [reflexivity|].
  intros H. destruct (H x x Infinity "int") as [m Hm]. discriminate Hm.
Qed.


(** [limit(floor(x), x, 0, "+-")]: the solver answers [0] on the right and
    [-1] on the left. *)
Lemma one_sided_limits_disagree_witness :
  doit 1 false (mkLimit (floor x) x Zero (Symbol "+-"))
  = Raise (no_limit NegativeOne Zero)
  /\ kind (no_limit NegativeOne Zero) = ValueError
  /\ In (Fmt NegativeOne) (message (no_limit NegativeOne Zero))
  /\ In (Fmt Zero) (message (no_limit NegativeOne Zero)).
Proof.
  apply (one_sided_limits_disagree lim1 heur1 false
           (mkLimit (floor x) x Zero (Symbol "+-")) (floor x) x Zero
           Zero NegativeOne);
    [reflexivity | reflexivity | reflexivity | reflexivity | discriminate].
Defined.

(** [limit(f(x), x, 0, "+-")] where the solver answers not-a-number on both
    sides: [PoleError] reaches the caller. *)
Lemma two_sided_nan_escapes_witness :
  doit 1 false (mkLimit (f x) x Zero (Symbol "+-")) = Raise pole
  /\ kind pole = PoleError.
Proof.
  apply (two_sided_nan_escapes lim1 heur1 false
           (mkLimit (f x) x Zero (Symbol "+-")) (f x) x Zero);
    reflexivity.
Defined.

(** [limit((1 + 1/x)**x, x, oo)] is [exp(1)], and
    [limit((1 + 1/x)**(1/x), x, oo)] is [1]. *)
Lemma power_of_base_one_witness :
  doit 1 false (mkLimit compound x Infinity (Symbol "-")) = Ok (exp One)
  /\ doit 1 false (mkLimit flat_power x Infinity (Symbol "-")) = Ok One.
Proof.
  split.
  - refine (proj1 (power_of_base_one lim1 heur1 false
                     (mkLimit compound x Infinity (Symbol "-"))
                     one_plus_inv_x x [] x Infinity Infinity
                     eq_refl eq_refl eq_refl eq_refl eq_refl) One _ eq_refl).
    now left.
  - refine (proj2 (power_of_base_one lim1 heur1 false
                     (mkLimit flat_power x Infinity (Symbol "-"))
                     one_plus_inv_x inv_x [] x Infinity Zero
                     eq_refl eq_refl eq_refl eq_refl eq_refl) _ _ eq_refl);
      discriminate.
Defined.

(** [heuristics(1/x, x, oo, "-")] asks for [limit(1/(1/x), x, 0, "+")] and
    returns its value [0]. *)
Lemma heuristics_at_infinite_point_witness :
  heuristics 1 inv_x x Infinity (DString "-") = Ok (Some Zero).
Proof.
  refine (proj1 (proj2 (proj2 (proj2
            (heuristics_at_infinite_point 0 inv_x x Infinity (DString "-")
               eq_refl)))) Zero eq_refl eq_refl).
Defined.

(** ** Further properties of the module *)

Lemma Expr_ind_nested (P : Expr -> Prop) :
  (forall h args, Forall P args -> P (Node h args)) ->
  forall e, P e.
Proof.
  intros H. fix IH 1. intros [h args]. apply H.
  induction args as [|a args IHargs]; constructor.
  - apply IH.
  - exact IHargs.
Qed.

Lemma args_eqb_refl (l : list Expr) : args_eqb l l = true.
Proof.
  unfold args_eqb. destruct (list_eq_dec Expr_eq_dec l l); congruence.
Qed.

Lemma mapM_fixed {B} (g : B -> result B) (l : list B) :
  Forall (fun a => g a = Ok a) l -> mapM g l = Ok l.
Proof.
  induction 1 as [|a l Ha _ IH]; cbn; [reflexivity|].
  now rewrite Ha, IH.
Qed.

Section Coverage.

Context {A : Algebra}.

(** *** The node *)

(** X1: the free symbols of a node are those of the expression that are
    not free symbols of the variable, together with those of the point; so
    a variable whose only free symbol is itself is free in the node exactly
    when it is free in the point; and no symbol is listed twice. *)
Theorem Limit_free_symbols_spec (free_symbols : Expr -> list Expr)
    (self : LimitNode) :
  (forall s,
     In s (Limit_free_symbols free_symbols self) <->
     (In s (free_symbols (l_expr self))
      /\ ~ In s (free_symbols (l_var self)))
     \/ In s (free_symbols (l_point self)))
  /\ (free_symbols (l_var self) = [l_var self] ->
      (In (l_var self) (Limit_free_symbols free_symbols self) <->
       In (l_var self) (free_symbols (l_point self))))
  /\ (NoDup (free_symbols (l_expr self)) ->
      NoDup (free_symbols (l_point self)) ->
      NoDup (Limit_free_symbols free_symbols self)).
Proof.
  assert (Hmem : forall s,
     In s (Limit_free_symbols free_symbols self) <->
     (In s (free_symbols (l_expr self))
      /\ ~ In s (free_symbols (l_var self)))
     \/ In s (free_symbols (l_point self))).
  { intros s. unfold Limit_free_symbols.
    rewrite ListSet.set_union_iff, ListSet.set_diff_iff. reflexivity. }
  split; [exact Hmem|]. split.
  - intros Hz. rewrite Hmem, Hz. cbn. tauto.
  - intros He Hp. unfold Limit_free_symbols.
    apply ListSet.set_union_nodup; [|exact Hp].
    now apply ListSet.set_diff_nodup.
Qed.

(** X2: a node that the constructor has built is rebuilt from its own
    arguments, as [expr.func] applied to [expr.args] does: the constructor
    succeeds and gives the same node. *)
Theorem Limit_new_rebuild (e z z0 : Expr) (dir : DirArg)
    (self : LimitNode) :
  Limit_new e z z0 dir = Ok self ->
  Limit_new (l_expr self) (l_var self) (l_point self) (DBasic (l_dir self))
  = Ok self.
Proof.
  intros Hnew.
  destruct (Expr_eq_dec z0 Infinity) as [-> | Hp].
  { rewrite Limit_new_at_infinity in Hnew. now injection Hnew as <-. }
  destruct (Expr_eq_dec z0 NegativeInfinity) as [-> | Hn].
  { rewrite Limit_new_at_negative_infinity in Hnew.
    now injection Hnew as <-. }
  rewrite Limit_new_finite in Hnew by assumption.
  destruct dir as [s | d | c]; try discriminate.
  - destruct (str_in s valid_dirs) eqn:Hs; try discriminate.
    injection Hnew as <-. cbn [l_expr l_var l_point l_dir].
    rewrite Limit_new_finite by assumption.
    cbn [is_Symbol func_of Symbol str]. now rewrite Hs.
  - destruct (is_Symbol d) eqn:Hd; try discriminate.
    destruct (str_in (str d) valid_dirs) eqn:Hs; try discriminate.
    injection Hnew as <-. cbn [l_expr l_var l_point l_dir].
    rewrite Limit_new_finite by assumption. now rewrite Hd, Hs.
Qed.

(** X3: at the points positive and negative infinity the entry function
    does not look at its direction argument: any two arguments, of any
    type and valid or not, give the same outcome. *)
Theorem limit_at_infinity_ignores_direction (n : nat) (e z : Expr)
    (d1 d2 : DirArg) :
  limit n e z Infinity d1 = limit n e z Infinity d2
  /\ limit n e z NegativeInfinity d1 = limit n e z NegativeInfinity d2.
Proof.
  split; rewrite !limit_unfold.
  - now rewrite !Limit_new_at_infinity.
  - now rewrite !Limit_new_at_negative_infinity.
Qed.

(** *** Removal of absolute values *)

Lemma remove_abs_fixed lim (z z0 dir expr : Expr) :
  abs_free expr = true ->
  remove_abs lim z z0 dir expr = Ok expr.
Proof.
  induction expr as [h args IH] using Expr_ind_nested.
  intros Hfree. cbn [abs_free] in Hfree.
  apply andb_prop in Hfree as [Hh Hargs].
  assert (Hmap : mapM (remove_abs lim z z0 dir) args = Ok args).
  { apply mapM_fixed. rewrite forallb_forall in Hargs.
    rewrite Forall_forall in *. intros a Ha. apply IH; auto. }
  destruct args as [|a args]; [reflexivity|].
  cbn [remove_abs]. cbn [remove_abs] in Hmap. rewrite Hmap.
  rewrite args_eqb_refl. cbn [negb].
  apply negb_true_iff in Hh. unfold is_Abs in *. cbn [func_of] in *.
  now rewrite Hh.
Qed.

(** X4: on an expression that holds no [Abs], [remove_abs] returns the
    expression itself, whatever the recursive calls of [limit] would
    answer: no limit is taken and no exception can come out of it. *)
Theorem remove_abs_without_Abs lim lim' (z z0 dir expr : Expr) :
  abs_free expr = true ->
  remove_abs lim z z0 dir expr = Ok expr
  /\ remove_abs lim' z z0 dir expr = remove_abs lim z z0 dir expr.
Proof.
  intros H. now rewrite !remove_abs_fixed.
Qed.

(** *** From the entry function to the fast paths *)

Lemma prelude_without_Abs lim (e z z0 dir : Expr) :
  z0 <> ComplexInfinity -> e <> z -> has e z = true ->
  abs_free e = true ->
  prelude lim false (mkLimit e z z0 dir) = Next (e, z, z0).
Proof.
  intros Hz0 Hne Hhas Hfree. unfold prelude.
  cbn [l_point l_expr l_var l_dir normalize_args call bind].
  rewrite (Expr_eqb_neq _ _ Hz0), (Expr_eqb_neq _ _ Hne), Hhas.
  cbn [negb]. now rewrite remove_abs_fixed.
Qed.

(** When no fast path applies control reaches the general fallback with
    the expression after the factorial rewrite. *)
Lemma fast_paths_fall_through lim (e z z0 dir : Expr) :
  z0 <> ComplexInfinity -> e <> z -> has e z = true ->
  abs_free e = true ->
  truthy (is_meromorphic e z z0) = false ->
  is_Mul (factorial_rewrite e z0) && infinite_magnitude z0 = false ->
  is_Order (factorial_rewrite e z0) = false ->
  is_Pow (factorial_rewrite e z0) = false ->
  fast_paths lim false (mkLimit e z z0 dir)
  = Next (factorial_rewrite e z0, z, z0).
Proof.
  intros Hz0 Hne Hhas Hfree Hm Hmul Hord Hpow.
  unfold fast_paths, before_power.
  rewrite prelude_without_Abs by assumption. cbn [bind].
  unfold meromorphic_path. rewrite Hm. cbn [bind].
  unfold mul_at_infinity. rewrite Hmul. cbn [bind].
  unfold order_path. rewrite Hord. cbn [bind].
  unfold power_path. now rewrite Hpow.
Qed.

Lemma limit_built (n : nat) (e z z0 : Expr) (dir : DirArg)
    (self : LimitNode) :
  Limit_new e z z0 dir = Ok self ->
  self = mkLimit e z z0 (l_dir self)
  /\ limit n e z z0 dir
     = doit_body (inner_limit n) (inner_heuristics n) false
         (mkLimit e z z0 (l_dir self)).
Proof.
  intros Hnew.
  destruct (Limit_new_fields _ _ _ _ _ Hnew) as (He & Hz & Hp & _).
  assert (E : self = mkLimit e z z0 (l_dir self))
    by (destruct self; cbn in *; congruence).
  split; [exact E|].
  rewrite limit_unfold, Hnew. unfold doit. now rewrite <- E.
Qed.

(** X5: for an expression without [Abs] in which the variable occurs,
    meromorphic at the point, whose shifted form has a leading term with a
    negative numeric exponent: at the point negative infinity the entry
    function returns [oo*sign(coeff)] whatever the parity of the exponent;
    at positive infinity it returns [oo*sign(coeff)] for an even exponent
    and [-oo*sign(coeff)] for an odd one.  This holds for every direction
    argument and every recursion bound. *)
Theorem limit_meromorphic_at_infinity (n : nat) (e z coeff ex : Expr)
    (q : Q) (dir : DirArg) :
  e <> z -> has e z = true -> abs_free e = true ->
  number_value ex = Some q -> (q < 0)%Q ->
  (is_meromorphic e z NegativeInfinity = Some true ->
   leadterm (shift e z NegativeInfinity) z 1 = Ok (coeff, ex) ->
   limit n e z NegativeInfinity dir = Ok (mul Infinity (sign coeff)))
  /\ (is_meromorphic e z Infinity = Some true ->
      leadterm (shift e z Infinity) z (-1) = Ok (coeff, ex) ->
      (is_even_integer ex = true ->
       limit n e z Infinity dir = Ok (mul Infinity (sign coeff)))
      /\ (is_odd_integer ex = true ->
          limit n e z Infinity dir
          = Ok (mul NegativeInfinity (sign coeff)))).
Proof.
  intros Hne Hhas Hfree Hq Hlt. split.
  - intros Hm Hl.
    rewrite limit_unfold, Limit_new_at_negative_infinity. unfold doit.
    apply (doit_body_meromorphic_return _ _ _ _ e z NegativeInfinity).
    + apply prelude_without_Abs; auto; discriminate.
    + apply (meromorphic_path_table e z NegativeInfinity (Symbol "+")
               coeff ex q Hm Hl Hq); auto.
  - intros Hm Hl.
    destruct (meromorphic_path_table e z Infinity (Symbol "-")
                coeff ex q Hm Hl Hq) as (_ & _ & H3 & H4 & _).
    split; intros Hpar;
      rewrite limit_unfold, Limit_new_at_infinity; unfold doit;
      apply (doit_body_meromorphic_return _ _ _ _ e z Infinity);
      try (apply prelude_without_Abs; auto; discriminate).
    + apply H3; auto.
    + apply H4; auto.
Qed.

(** X6: end to end, when the expression holds no [Abs], the variable
    occurs in it and no fast path applies (it is not known to be
    meromorphic and, after the factorial rewrite, is neither a product at
    an infinite point, nor an order term, nor a power), a one-sided
    request returns what the solver answers, if that is not not-a-number;
    no recursion is needed. *)
Theorem limit_returns_solver_answer (n : nat) (e z z0 : Expr)
    (dir : DirArg) (self : LimitNode) (r : Expr) :
  Limit_new e z z0 dir = Ok self ->
  z0 <> ComplexInfinity -> e <> z -> has e z = true ->
  abs_free e = true ->
  truthy (is_meromorphic e z z0) = false ->
  is_Mul (factorial_rewrite e z0) && infinite_magnitude z0 = false ->
  is_Order (factorial_rewrite e z0) = false ->
  is_Pow (factorial_rewrite e z0) = false ->
  str (l_dir self) <> "+-" ->
  gruntz (factorial_rewrite e z0) z z0 (str (l_dir self)) = Ok r ->
  r <> NaN ->
  limit n e z z0 dir = Ok r.
Proof.
  intros Hnew Hz0 Hne Hhas Hfree Hm Hmul Hord Hpow Hd Hg Hr.
  destruct (limit_built n _ _ _ _ _ Hnew) as [E ->].
  rewrite (doit_body_fallback _ _ _ _ _ _ _
             (fast_paths_fall_through _ e z z0 (l_dir self)
                Hz0 Hne Hhas Hfree Hm Hmul Hord Hpow)).
  unfold general_fallback, solver_attempt. cbn [l_dir].
  apply String.eqb_neq in Hd. rewrite Hd, Hg, (Expr_eqb_neq _ _ Hr).
  reflexivity.
Qed.

(** X7: under the same conditions, when the solver raises [PoleError] or
    [ValueError] or answers not-a-number, the entry function at recursion
    bound [S n] returns what [heuristics] returns at bound [n] on the same
    expression, variable, point and direction, and the unevaluated node
    when that is "no result". *)
Theorem limit_hands_over_to_heuristics (n : nat) (e z z0 : Expr)
    (dir : DirArg) (self : LimitNode) :
  Limit_new e z z0 dir = Ok self ->
  z0 <> ComplexInfinity -> e <> z -> has e z = true ->
  abs_free e = true ->
  truthy (is_meromorphic e z z0) = false ->
  is_Mul (factorial_rewrite e z0) && infinite_magnitude z0 = false ->
  is_Order (factorial_rewrite e z0) = false ->
  is_Pow (factorial_rewrite e z0) = false ->
  str (l_dir self) <> "+-" ->
  pole_signal (gruntz (factorial_rewrite e z0) z z0 (str (l_dir self)))
  = true ->
  limit (S n) e z z0 dir
  = heuristics_or_self self
      (heuristics n (factorial_rewrite e z0) z z0 (DBasic (l_dir self))).
Proof.
  intros Hnew Hz0 Hne Hhas Hfree Hm Hmul Hord Hpow Hd Hs.
  destruct (limit_built (S n) _ _ _ _ _ Hnew) as [E ->].
  rewrite (doit_body_fallback _ _ _ _ _ _ _
             (fast_paths_fall_through _ e z z0 (l_dir self)
                Hz0 Hne Hhas Hfree Hm Hmul Hord Hpow)).
  unfold general_fallback, solver_attempt. cbn [l_dir inner_heuristics].
  apply String.eqb_neq in Hd. rewrite Hd.
  assert (Hself : to_expr (mkLimit e z z0 (l_dir self)) = to_expr self)
    by (now rewrite <- E).
  destruct (gruntz _ z z0 (str (l_dir self))) as [r | x |];
    cbn in Hs; try discriminate.
  - rewrite Hs. cbn. rewrite Hself.
    now destruct (heuristics n _ _ _ _) as [[|] | |].
  - cbn in *. rewrite Hs. cbn. rewrite Hself.
    now destruct (heuristics n _ _ _ _) as [[|] | |].
Qed.

(** *** The term-wise heuristic at a finite point *)

(** The loop keeps the limits of the arguments, in order. *)
Lemma heuristics_args_kept lim heur (e z z0 : Expr) (dir : DirArg)
    (todo ls r : list Expr) :
  Forall2 (fun a l => lim a z z0 dir = Ok l /\ kept_limit l = true)
          todo ls ->
  heuristics_args lim heur e z z0 dir todo r = Next (r ++ ls)%list.
Proof.
  intros H. revert r.
  induction H as [|a l todo ls [Ha Hk] _ IH]; intros r; cbn.
  - now rewrite app_nil_r.
  - rewrite Ha. cbn [call bind].
    unfold kept_limit in Hk.
    apply andb_prop in Hk as [Hk Hnan]. apply andb_prop in Hk as [Hinf Hlim].
    apply negb_true_iff in Hinf, Hlim, Hnan.
    rewrite Hinf, Hlim, Hnan, IH, <- app_assoc. reflexivity.
Qed.

Lemma heuristics_args_app lim heur (e z z0 : Expr) (dir : DirArg)
    (pre post ls r : list Expr) :
  Forall2 (fun a l => lim a z z0 dir = Ok l /\ kept_limit l = true)
          pre ls ->
  heuristics_args lim heur e z z0 dir (pre ++ post)%list r
  = heuristics_args lim heur e z z0 dir post (r ++ ls)%list.
Proof.
  intros H. revert r.
  induction H as [|a l pre ls [Ha Hk] _ IH]; intros r; cbn.
  - now rewrite app_nil_r.
  - rewrite Ha. cbn [call bind].
    unfold kept_limit in Hk.
    apply andb_prop in Hk as [Hk Hnan]. apply andb_prop in Hk as [Hinf Hlim].
    apply negb_true_iff in Hinf, Hlim, Hnan.
    rewrite Hinf, Hlim, Hnan, IH, <- app_assoc. reflexivity.
Qed.

(** X8: at a point of finite magnitude, for a product, sum, power or
    function application with at least one argument, when the limit of
    every argument is taken and kept, [heuristics] returns the expression's
    class applied to the limits of the arguments in their order, provided
    that is not not-a-number. *)
Theorem heuristics_recombines lim heur (e z z0 : Expr) (dir : DirArg)
    (ls : list Expr) :
  infinite_magnitude z0 = false ->
  is_composite e = true ->
  args_of e <> [] ->
  Forall2 (fun a l => lim a z z0 dir = Ok l /\ kept_limit l = true)
          (args_of e) ls ->
  construct (func_of e) ls <> NaN ->
  heuristics_body lim heur e z z0 dir
  = Ok (Some (construct (func_of e) ls)).
Proof.
  intros Hinf Hc Hargs Hall Hnan.
  unfold heuristics_body. rewrite Hinf. unfold is_composite in Hc.
  rewrite Hc, (heuristics_args_kept _ _ _ _ _ _ _ _ [] Hall).
  cbn [app bind].
  destruct ls as [|l ls].
  - inversion Hall as [E|]. now rewrite <- E in Hargs.
  - rewrite (Expr_eqb_neq _ _ Hnan). cbn [andb bind].
    now rewrite (Expr_eqb_neq _ _ Hnan).
Qed.

(** X9: at a point of finite magnitude, for a product, sum, power or
    function application, when the limits of the first arguments are kept
    and the limit of the next one holds an infinity while its finiteness is
    unknown, the expression not being a sum, or else is an unevaluated node
    or not-a-number, [heuristics] has no result; an exception raised by
    that limit is passed on. *)
Theorem heuristics_gives_up lim heur (e z z0 : Expr) (dir : DirArg)
    (pre post ls : list Expr) (a : Expr) :
  infinite_magnitude z0 = false ->
  is_composite e = true ->
  args_of e = (pre ++ a :: post)%list ->
  Forall2 (fun a l => lim a z z0 dir = Ok l /\ kept_limit l = true)
          pre ls ->
  (forall l, lim a z z0 dir = Ok l ->
     (has l Infinity && is_None (is_finite l) = true /\ is_Add e = false)
     \/ (has l Infinity && is_None (is_finite l) = false
         /\ (is_Limit l = true \/ l = NaN)) ->
     heuristics_body lim heur e z z0 dir = Ok None)
  /\ (forall x, lim a z z0 dir = Raise x ->
        heuristics_body lim heur e z z0 dir = Raise x).
Proof.
  intros Hinf Hc Hargs Hall.
  unfold heuristics_body. rewrite Hinf. unfold is_composite in Hc.
  rewrite Hc, Hargs, (heuristics_args_app _ _ _ _ _ _ _ _ _ [] Hall).
  cbn [app heuristics_args]. split.
  - intros l Hl Hbad. rewrite Hl. cbn [call bind].
    destruct Hbad as [[Hu Ha] | [Hu [Hb | Hb]]]; rewrite Hu.
    + now rewrite Ha.
    + now rewrite Hb.
    + subst l. destruct (is_Limit NaN); [reflexivity|].
      now rewrite Expr_eqb_refl.
  - intros x Hx. now rewrite Hx.
Qed.

(** X10: at a point of finite magnitude, for a sum, when the limits of the
    first arguments are kept and the limit of the next one holds an
    infinity while its finiteness is unknown, the sum is rewritten as a
    product by [factor_terms], else by [together] of that, else by
    [factor] of the sum, and the answer is that of [heuristics] on the
    first of these that is a product; without one there is no result. *)
Theorem heuristics_rewrites_sum lim heur (e z z0 : Expr) (dir : DirArg)
    (pre post ls : list Expr) (a l : Expr) :
  infinite_magnitude z0 = false ->
  is_Add e = true ->
  args_of e = (pre ++ a :: post)%list ->
  Forall2 (fun a l => lim a z z0 dir = Ok l /\ kept_limit l = true)
          pre ls ->
  lim a z z0 dir = Ok l ->
  has l Infinity && is_None (is_finite l) = true ->
  (is_Mul (factor_terms e) = true ->
   heuristics_body lim heur e z z0 dir = heur (factor_terms e) z z0 dir)
  /\ (is_Mul (factor_terms e) = false ->
      is_Mul (together (factor_terms e)) = true ->
      heuristics_body lim heur e z z0 dir
      = heur (together (factor_terms e)) z z0 dir)
  /\ (is_Mul (factor_terms e) = false ->
      is_Mul (together (factor_terms e)) = false ->
      is_Mul (factor e) = true ->
      heuristics_body lim heur e z z0 dir = heur (factor e) z z0 dir)
  /\ (is_Mul (factor_terms e) = false ->
      is_Mul (together (factor_terms e)) = false ->
      is_Mul (factor e) = false ->
      heuristics_body lim heur e z z0 dir = Ok None).
Proof.
  intros Hinf Ha Hargs Hall Hl Hu.
  assert (Hc : is_Mul e || is_Add e || is_Pow e || is_Function e = true).
  { rewrite Ha. now destruct (is_Mul e). }
  assert (Hfin : forall (h : result (option Expr))
                    (k : list Expr -> flow (option Expr) (option Expr)),
            finish (r <- (rv <- call h ;; Return rv) ;; k r) = h).
  { intros [[v|] | x |] k; reflexivity. }
  unfold heuristics_body. rewrite Hinf, Hc, Hargs.
  rewrite (heuristics_args_app _ _ _ _ _ _ _ _ _ [] Hall).
  cbn [app heuristics_args]. rewrite Hl. cbn [call bind].
  rewrite Hu, Ha.
  split; [|split; [|split]].
  - intros H1. do 3 (rewrite ?H1; cbn [negb]). apply Hfin.
  - intros H1 H2. do 3 (rewrite ?H1, ?H2; cbn [negb]). apply Hfin.
  - intros H1 H2 H3. do 3 (rewrite ?H1, ?H2, ?H3; cbn [negb]). apply Hfin.
  - intros H1 H2 H3. do 3 (rewrite ?H1, ?H2, ?H3; cbn [negb]).
    reflexivity.
Qed.

(** X11: at a point of finite magnitude, when the limits of all arguments
    are kept but their recombination is not-a-number, and the expression
    is not a product (or none of the limits is an [AccumBounds]): if
    [ratsimp] raises [PolynomialError], or returns not-a-number or the
    expression unchanged, there is no result; otherwise the result is the
    limit of the simplified expression, taken through the entry function,
    returned as it is. *)
Theorem heuristics_last_resort lim heur (e z z0 : Expr) (dir : DirArg)
    (ls : list Expr) :
  infinite_magnitude z0 = false ->
  is_composite e = true ->
  args_of e <> [] ->
  Forall2 (fun a l => lim a z z0 dir = Ok l /\ kept_limit l = true)
          (args_of e) ls ->
  construct (func_of e) ls = NaN ->
  is_Mul e && existsb is_AccumBounds ls = false ->
  (forall x, ratsimp e = Raise x -> kind x = PolynomialError ->
     heuristics_body lim heur e z z0 dir = Ok None)
  /\ (forall rat_e, ratsimp e = Ok rat_e -> rat_e = NaN \/ rat_e = e ->
        heuristics_body lim heur e z z0 dir = Ok None)
  /\ (forall rat_e v, ratsimp e = Ok rat_e -> rat_e <> NaN -> rat_e <> e ->
        lim rat_e z z0 dir = Ok v ->
        heuristics_body lim heur e z z0 dir = Ok (Some v)).
Proof.
  intros Hinf Hc Hargs Hall Hnan Hacc.
  assert (Hbody : heuristics_body lim heur e z z0 dir =
            finish (
              rat_e <- try_except (call (ratsimp e)) [PolynomialError]
                         (Return None) ;;
              if Expr_eqb rat_e NaN || Expr_eqb rat_e e then Return None
              else rv' <- call (lim rat_e z z0 dir) ;; Return (Some rv'))).
  { unfold heuristics_body. rewrite Hinf. unfold is_composite in Hc.
    rewrite Hc, (heuristics_args_kept _ _ _ _ _ _ _ _ [] Hall).
    cbn [app bind].
    destruct ls as [|l ls].
    { inversion Hall as [E|]. now rewrite <- E in Hargs. }
    rewrite Hnan, Expr_eqb_refl. cbn [andb].
    rewrite Hacc. cbn [bind]. now rewrite Expr_eqb_refl. }
  rewrite Hbody. split; [|split].
  - intros x Hx Hk. rewrite Hx. cbn [call try_except].
    unfold caught_by. cbn [existsb]. rewrite Hk. reflexivity.
  - intros rat_e Hr Hsame. rewrite Hr. cbn [call try_except bind].
    destruct Hsame as [-> | ->]; rewrite Expr_eqb_refl;
      [reflexivity | now rewrite orb_true_r].
  - intros rat_e v Hr Hn He Hv. rewrite Hr. cbn [call try_except bind].
    rewrite (Expr_eqb_neq _ _ Hn), (Expr_eqb_neq _ _ He). cbn [orb].
    now rewrite Hv.
Qed.

(** *** The stages of [doit] *)

Lemma before_power_unfold lim (deep : bool) (self : LimitNode) :
  before_power lim deep self =
  (ezz <- before_product lim deep self ;;
   let '(e, z, z0) := ezz in
   e' <- mul_at_infinity lim self e z z0 ;;
   order_path lim e' z z0 ;;
   Next (e', z, z0)).
Proof.
  unfold before_power, before_product.
  destruct (prelude lim deep self) as [[[e z] z0] | | |]; cbn [bind];
    try reflexivity.
  now destruct (meromorphic_path e z z0 (l_dir self)).
Qed.

Lemma doit_body_power_return lim heur (deep : bool) (self : LimitNode)
    (e z z0 v : Expr) :
  before_power lim deep self = Next (e, z, z0) ->
  power_path lim self e z z0 = Return v ->
  doit_body lim heur deep self = Ok v.
Proof.
  intros Hb Hp. unfold doit_body, fast_paths. rewrite Hb. cbn [bind].
  now rewrite Hp.
Qed.

(** X12: when the leading term of the shifted expression cannot be had
    ([leadterm] raises), [ValueError] and [NotImplementedError] abandon the
    meromorphic fast path and evaluation goes on with the later stages;
    any other exception, [PoleError] included, ends [doit]. *)
Theorem leadterm_failure lim heur (deep : bool) (self : LimitNode)
    (e z z0 : Expr) (x : exn) :
  prelude lim deep self = Next (e, z, z0) ->
  is_meromorphic e z z0 = Some true ->
  leadterm (shift e z z0) z (cdir_of (l_dir self)) = Raise x ->
  (caught_by [ValueError; NotImplementedError] x = true ->
   before_product lim deep self = Next (factorial_rewrite e z0, z, z0))
  /\ (caught_by [ValueError; NotImplementedError] x = false ->
      doit_body lim heur deep self = Raise x).
Proof.
  intros Hp Hm Hl. split; intros Hc.
  - unfold before_product. rewrite Hp. cbn [bind].
    unfold meromorphic_path. now rewrite Hm, Hl, Hc.
  - unfold doit_body, fast_paths, before_power. rewrite Hp. cbn [bind].
    unfold meromorphic_path. now rewrite Hm, Hl, Hc.
Qed.

(** X13: for a product at a point of infinite magnitude, when
    [as_leading_term] of the inverted expression raises [ValueError],
    [NotImplementedError] or [PoleError], the product path is abandoned and
    evaluation goes on with the expression as [factor_terms] left it. *)
Theorem product_path_abandoned lim (self : LimitNode) (e z z0 : Expr)
    (x : exn) :
  is_Mul e = true ->
  infinite_magnitude z0 = true ->
  as_leading_term
    (subs (factor_terms e) z
       (rdiv (if Expr_eqb z0 NegativeInfinity then -1 else 1)
             (Node (HDummy "u" (fresh_index (factor_terms e))) [])))
    (Node (HDummy "u" (fresh_index (factor_terms e))) []) = Raise x ->
  caught_by [ValueError; NotImplementedError; PoleError] x = true ->
  mul_at_infinity lim self e z z0 = Next (factor_terms e).
Proof.
  intros Hm Hinf Hl Hc. unfold mul_at_infinity. rewrite Hm, Hinf.
  cbn [andb].
  destruct (Expr_eqb z0 NegativeInfinity); rewrite Hl;
    cbn [call bind try_except]; now rewrite Hc.
Qed.

(** X14: the limit of an order term that reaches line 282 is the order
    term built from the limit of its first argument and its other
    arguments; that limit is taken with the default direction [+], and an
    exception it raises ends [doit]. *)
Theorem order_term_passes_through lim heur (deep : bool)
    (self : LimitNode) (inner : Expr) (rest : list Expr) (z z0 : Expr) :
  before_product lim deep self = Next (Node HOrder (inner :: rest), z, z0) ->
  (forall l, lim inner z z0 (DString "+") = Ok l ->
     doit_body lim heur deep self = Ok (Order (l :: rest)))
  /\ (forall x, lim inner z z0 (DString "+") = Raise x ->
        doit_body lim heur deep self = Raise x).
Proof.
  intros Hb. unfold doit_body, fast_paths.
  rewrite before_power_unfold, Hb. cbn [bind].
  unfold mul_at_infinity. cbn [is_Mul func_of andb bind].
  unfold order_path. cbn [is_Order func_of args_of].
  split; intros v Hv; now rewrite Hv.
Qed.

(** X15: a power that holds an infinity or not-a-number is returned
    unevaluated: the result is the node itself. *)
Theorem power_with_infinity_unevaluated lim heur (deep : bool)
    (self : LimitNode) (e z z0 : Expr) :
  before_power lim deep self = Next (e, z, z0) ->
  is_Pow e = true ->
  has_any e [Infinity; NegativeInfinity; ComplexInfinity; NaN] = true ->
  doit_body lim heur deep self = Ok (to_expr self).
Proof.
  intros Hb Hp Hh.
  apply (doit_body_power_return _ _ _ _ e z z0 _ Hb).
  unfold power_path. now rewrite Hp, Hh.
Qed.

(** X16: for a power [b1**e1] without infinities, when [e1*log(b1)] is
    meromorphic at the point the result is [exp] of its limit, taken with
    the default direction; the limits of base and exponent are not
    computed. *)
Theorem power_log_transform lim heur (deep : bool) (self : LimitNode)
    (b1 e1 : Expr) (rest : list Expr) (z z0 res : Expr) :
  before_power lim deep self = Next (Node HPow (b1 :: e1 :: rest), z, z0) ->
  has_any (Node HPow (b1 :: e1 :: rest))
    [Infinity; NegativeInfinity; ComplexInfinity; NaN] = false ->
  is_meromorphic (mul e1 (log b1)) z z0 = Some true ->
  lim (mul e1 (log b1)) z z0 (DString "+") = Ok res ->
  doit_body lim heur deep self = Ok (exp res).
Proof.
  intros Hb Hh Hm Hres.
  apply (doit_body_power_return _ _ _ _ _ z z0 _ Hb).
  unfold power_path. cbn [is_Pow func_of args_of].
  now rewrite Hh, Hm, Hres.
Qed.

(** What the table of lines 298-318 sees *)
Lemma power_path_table lim (self : LimitNode) (b1 e1 : Expr)
    (rest : list Expr) (z z0 ex_lim base_lim : Expr) :
  has_any (Node HPow (b1 :: e1 :: rest))
    [Infinity; NegativeInfinity; ComplexInfinity; NaN] = false ->
  truthy (is_meromorphic (mul e1 (log b1)) z z0) = false ->
  lim e1 z z0 (DString "+") = Ok ex_lim ->
  lim b1 z z0 (DString "+") = Ok base_lim ->
  base_lim <> One ->
  power_path lim self (Node HPow (b1 :: e1 :: rest)) z z0 =
  ((if (Expr_eqb base_lim Zero || Expr_eqb base_lim Infinity
        || Expr_eqb base_lim NegativeInfinity)
       && Expr_eqb ex_lim Zero
    then
      res <- call (lim (mul e1 (log b1)) z z0 (DString "+")) ;;
      Return (exp res)
    else Next tt) ;;
   (if Expr_eqb base_lim NegativeInfinity then
      if Expr_eqb ex_lim NegativeInfinity then Return Zero
      else if Expr_eqb ex_lim Infinity then Return ComplexInfinity
      else Next tt
    else Next tt) ;;
   if negb (is_AccumBounds base_lim) && negb (is_AccumBounds ex_lim)
   then
     if negb (Expr_eqb (Pow base_lim ex_lim) ComplexInfinity)
        && negb (is_Pow (Pow base_lim ex_lim))
     then Return (Pow base_lim ex_lim)
     else Next tt
   else Next tt).
Proof.
  intros Hh Hm Hex Hbase Hne.
  unfold power_path. cbn [is_Pow func_of args_of].
  rewrite Hh, Hm, Hex. cbn [call bind]. rewrite Hbase. cbn [call bind].
  now rewrite (Expr_eqb_neq _ _ Hne).
Qed.

(** X17: for a power [b1**e1] to which the log transform does not apply:
    when the base tends to [0], [oo] or [-oo] and the exponent to [0], the
    result is [exp] of the limit of [e1*log(b1)]; when the base tends to
    [-oo], the result is [0] for an exponent tending to [-oo] and complex
    infinity for one tending to [oo]. *)
Theorem power_of_zero_or_infinite_base lim heur (deep : bool)
    (self : LimitNode) (b1 e1 : Expr) (rest : list Expr)
    (z z0 ex_lim base_lim : Expr) :
  before_power lim deep self = Next (Node HPow (b1 :: e1 :: rest), z, z0) ->
  has_any (Node HPow (b1 :: e1 :: rest))
    [Infinity; NegativeInfinity; ComplexInfinity; NaN] = false ->
  truthy (is_meromorphic (mul e1 (log b1)) z z0) = false ->
  lim e1 z z0 (DString "+") = Ok ex_lim ->
  lim b1 z z0 (DString "+") = Ok base_lim ->
  (forall res,
     base_lim = Zero \/ base_lim = Infinity \/ base_lim = NegativeInfinity ->
     ex_lim = Zero ->
     lim (mul e1 (log b1)) z z0 (DString "+") = Ok res ->
     doit_body lim heur deep self = Ok (exp res))
  /\ (base_lim = NegativeInfinity -> ex_lim = NegativeInfinity ->
      doit_body lim heur deep self = Ok Zero)
  /\ (base_lim = NegativeInfinity -> ex_lim = Infinity ->
      doit_body lim heur deep self = Ok ComplexInfinity).
Proof.
  intros Hb Hh Hm Hex Hbase.
  split; [|split].
  - intros res Hcase -> Hres.
    apply (doit_body_power_return _ _ _ _ _ z z0 _ Hb).
    rewrite (power_path_table _ _ _ _ _ _ _ _ _ Hh Hm Hex Hbase)
      by (destruct Hcase as [-> | [-> | ->]]; discriminate).
    rewrite Expr_eqb_refl, andb_true_r.
    assert (E : Expr_eqb base_lim Zero || Expr_eqb base_lim Infinity
                || Expr_eqb base_lim NegativeInfinity = true)
      by (destruct Hcase as [-> | [-> | ->]]; reflexivity).
    now rewrite E, Hres.
  - intros -> ->.
    apply (doit_body_power_return _ _ _ _ _ z z0 _ Hb).
    now rewrite (power_path_table _ _ _ _ _ _ _ _ _ Hh Hm Hex Hbase)
      by discriminate.
  - intros -> ->.
    apply (doit_body_power_return _ _ _ _ _ z z0 _ Hb).
    now rewrite (power_path_table _ _ _ _ _ _ _ _ _ Hh Hm Hex Hbase)
      by discriminate.
Qed.

(** X18: for a power [b1**e1] to which the log transform does not apply,
    whose base tends to something other than [1], [0], [oo] and [-oo],
    neither limit being an [AccumBounds]: the result is the limit of the
    base raised to the limit of the exponent, when that is neither complex
    infinity nor still a power; otherwise the power path gives nothing and
    the general fallback decides. *)
Theorem power_of_limits lim heur (deep : bool) (self : LimitNode)
    (b1 e1 : Expr) (rest : list Expr) (z z0 ex_lim base_lim : Expr) :
  before_power lim deep self = Next (Node HPow (b1 :: e1 :: rest), z, z0) ->
  has_any (Node HPow (b1 :: e1 :: rest))
    [Infinity; NegativeInfinity; ComplexInfinity; NaN] = false ->
  truthy (is_meromorphic (mul e1 (log b1)) z z0) = false ->
  lim e1 z z0 (DString "+") = Ok ex_lim ->
  lim b1 z z0 (DString "+") = Ok base_lim ->
  base_lim <> One -> base_lim <> Zero ->
  base_lim <> Infinity -> base_lim <> NegativeInfinity ->
  is_AccumBounds base_lim = false -> is_AccumBounds ex_lim = false ->
  (Pow base_lim ex_lim <> ComplexInfinity ->
   is_Pow (Pow base_lim ex_lim) = false ->
   doit_body lim heur deep self = Ok (Pow base_lim ex_lim))
  /\ (Pow base_lim ex_lim = ComplexInfinity
      \/ is_Pow (Pow base_lim ex_lim) = true ->
      doit_body lim heur deep self
      = finish (general_fallback heur self
                  (Node HPow (b1 :: e1 :: rest)) z z0)).
Proof.
  intros Hb Hh Hm Hex Hbase H1 H0 Hp Hn Ha1 Ha2.
  assert (Htab := power_path_table lim self _ _ rest _ _ _ _
                    Hh Hm Hex Hbase H1).
  rewrite (Expr_eqb_neq _ _ H0), (Expr_eqb_neq _ _ Hp),
    (Expr_eqb_neq _ _ Hn), Ha1, Ha2 in Htab.
  cbn [orb andb negb bind] in Htab.
  split.
  - intros Hz Hpow.
    apply (doit_body_power_return _ _ _ _ _ z z0 _ Hb).
    now rewrite Htab, (Expr_eqb_neq _ _ Hz), Hpow.
  - intros Hrej. unfold doit_body, fast_paths. rewrite Hb. cbn [bind].
    rewrite Htab.
    destruct Hrej as [-> | ->].
    + now rewrite Expr_eqb_refl.
    + now rewrite andb_false_r.
Qed.

(** X19: in a bidirectional request that reaches the general fallback,
    when the solver gives the same answer on both sides and it is not
    not-a-number, that answer is the result; and in any request an
    exception of the solver's first call other than [PoleError] and
    [ValueError] ends [doit], whatever the heuristic would answer. *)
Theorem solver_agreement lim heur (deep : bool) (self : LimitNode)
    (e z z0 : Expr) :
  fast_paths lim deep self = Next (e, z, z0) ->
  (forall r, str (l_dir self) = "+-" ->
     gruntz e z z0 "+" = Ok r -> gruntz e z z0 "-" = Ok r -> r <> NaN ->
     doit_body lim heur deep self = Ok r)
  /\ (forall x,
        gruntz e z z0
          (if String.eqb (str (l_dir self)) "+-" then "+"
           else str (l_dir self)) = Raise x ->
        caught_by [PoleError; ValueError] x = false ->
        doit_body lim heur deep self = Raise x).
Proof.
  intros Hf. rewrite (doit_body_fallback _ _ _ _ _ _ _ Hf).
  unfold general_fallback, solver_attempt. split.
  - intros r Hd Hp Hm Hr. rewrite Hd. cbn [String.eqb Ascii.eqb Bool.eqb].
    now rewrite Hp, Hm, Expr_eqb_refl, (Expr_eqb_neq _ _ Hr).
  - intros x Hg Hc.
    destruct (String.eqb (str (l_dir self)) "+-"); rewrite Hg;
      now rewrite Hc.
Qed.

End Coverage.

(** *** The recursion bound *)

Lemma flow_le_refl {R B} (m : flow R B) : flow_le m m.
Proof. now right. Qed.

Lemma result_le_refl {B} (r : result B) : result_le r r.
Proof. now right. Qed.

Lemma bind_le {R B C} (m m' : flow R B) (k k' : B -> flow R C) :
  flow_le m m' -> (forall a, flow_le (k a) (k' a)) ->
  flow_le (bind m k) (bind m' k').
Proof.
  intros [-> | ->] Hk; [now left|].
  destruct m'; cbn; auto using flow_le_refl.
Qed.

Lemma call_le {R B} (r r' : result B) :
  result_le r r' -> flow_le (R := R) (call r) (call r').
Proof. intros [-> | ->]; [now left | now right]. Qed.

Lemma finish_le {R} (m m' : flow R R) :
  flow_le m m' -> result_le (finish m) (finish m').
Proof. intros [-> | ->]; [now left | now right]. Qed.

Lemma try_except_le {R B} (b b' h h' : flow R B) (ks : list exn_kind) :
  flow_le b b' -> flow_le h h' ->
  flow_le (try_except b ks h) (try_except b' ks h').
Proof.
  intros [-> | ->] Hh; [now left|].
  destruct b' as [a | r | y |]; cbn; auto using flow_le_refl.
  destruct (caught_by ks y); auto using flow_le_refl.
Qed.

Lemma mapM_le {B C} (g g' : B -> result C) (l : list B) :
  Forall (fun a => result_le (g a) (g' a)) l ->
  result_le (mapM g l) (mapM g' l).
Proof.
  induction 1 as [|a l [Ha | Ha] _ [IH | IH]]; cbn.
  - now right.
  - rewrite Ha. now left.
  - rewrite Ha. now left.
  - rewrite Ha, IH. destruct (g' a); [now left | now right | now right].
  - rewrite Ha, IH. now right.
Qed.

Ltac mono :=
  repeat first
    [ apply flow_le_refl
    | apply bind_le; [|intros ?]
    | apply call_le
    | apply try_except_le
    | match goal with
      | |- flow_le (if ?c then _ else _) (if ?c then _ else _) =>
          destruct c
      | |- flow_le (match ?x with _ => _ end) (match ?x with _ => _ end) =>
          destruct x
      end
    | solve [auto] ].

Section Monotone.

Context {A : Algebra}.

Variables lim lim' : Expr -> Expr -> Expr -> DirArg -> result Expr.
Variables heur heur'
  : Expr -> Expr -> Expr -> DirArg -> result (option Expr).

Hypothesis lim_le :
  forall e z z0 d, result_le (lim e z z0 d) (lim' e z z0 d).
Hypothesis heur_le :
  forall e z z0 d, result_le (heur e z z0 d) (heur' e z z0 d).

Lemma heuristics_args_le (e z z0 : Expr) (dir : DirArg)
    (todo r : list Expr) :
  flow_le (heuristics_args lim heur e z z0 dir todo r)
          (heuristics_args lim' heur' e z z0 dir todo r).
Proof.
  revert r. induction todo as [|a todo IH]; intros r; cbn.
  - apply flow_le_refl.
  - mono.
Qed.

Lemma heuristics_body_le (e z z0 : Expr) (dir : DirArg) :
  result_le (heuristics_body lim heur e z z0 dir)
            (heuristics_body lim' heur' e z z0 dir).
Proof.
  unfold heuristics_body. apply finish_le.
  destruct (infinite_magnitude z0); [mono|].
  destruct (is_Mul e || is_Add e || is_Pow e || is_Function e);
    [|apply flow_le_refl].
  apply bind_le; [apply heuristics_args_le|]. intros r. mono.
Qed.

Lemma remove_abs_le (z z0 dir expr : Expr) :
  result_le (remove_abs lim z z0 dir expr) (remove_abs lim' z z0 dir expr).
Proof.
  induction expr as [h args IH] using Expr_ind_nested.
  destruct args as [|a args]; [now right|].
  cbn [remove_abs].
  destruct (mapM_le _ _ _ IH) as [E | E]; rewrite E.
  - now left.
  - destruct (mapM (remove_abs lim' z z0 dir) (a :: args))
      as [newargs | y |]; try apply result_le_refl.
    destruct (is_Abs _); [|apply result_le_refl].
    apply finish_le. mono.
Qed.

Lemma prelude_le (deep : bool) (self : LimitNode) :
  flow_le (prelude lim deep self) (prelude lim' deep self).
Proof.
  unfold prelude.
  destruct (Expr_eqb (l_point self) ComplexInfinity);
    [apply flow_le_refl|].
  apply bind_le; [apply flow_le_refl|]. intros [[e z] z0].
  destruct (Expr_eqb e z); [apply flow_le_refl|].
  destruct (negb (has e z)); [apply flow_le_refl|].
  apply bind_le; [apply call_le, remove_abs_le | intros; apply flow_le_refl].
Qed.

Lemma before_power_le (deep : bool) (self : LimitNode) :
  flow_le (before_power lim deep self) (before_power lim' deep self).
Proof.
  unfold before_power.
  apply bind_le; [apply prelude_le|]. intros [[e z] z0].
  apply bind_le; [apply flow_le_refl|]. intros _.
  apply bind_le; [unfold mul_at_infinity; mono|]. intros e'.
  apply bind_le; [unfold order_path; mono | intros; apply flow_le_refl].
Qed.

Lemma fast_paths_le (deep : bool) (self : LimitNode) :
  flow_le (fast_paths lim deep self) (fast_paths lim' deep self).
Proof.
  unfold fast_paths.
  apply bind_le; [apply before_power_le|]. intros [[e z] z0].
  apply bind_le; [unfold power_path; mono | intros; apply flow_le_refl].
Qed.

Lemma doit_body_le (deep : bool) (self : LimitNode) :
  result_le (doit_body lim heur deep self) (doit_body lim' heur' deep self).
Proof.
  unfold doit_body. apply finish_le.
  apply bind_le; [apply fast_paths_le|]. intros [[e z] z0].
  unfold general_fallback.
  destruct (solver_attempt e z z0 (l_dir self)) as [l attempt].
  mono.
Qed.

End Monotone.

Section Coverage2.

Context {A : Algebra}.

Lemma recursion_step (n : nat) :
  (forall e z z0 d, result_le (limit n e z z0 d) (limit (S n) e z z0 d))
  /\ (forall e z z0 d,
        result_le (heuristics n e z z0 d) (heuristics (S n) e z z0 d)).
Proof.
  induction n as [|n [IHl IHh]].
  - split; intros e z z0 d.
    + rewrite !limit_unfold. destruct (Limit_new e z z0 d);
        try apply result_le_refl.
      apply doit_body_le; intros; now left.
    + rewrite !heuristics_unfold. apply heuristics_body_le; intros; now left.
  - split; intros e z z0 d.
    + rewrite !limit_unfold. destruct (Limit_new e z z0 d);
        try apply result_le_refl.
      apply doit_body_le; assumption.
    + rewrite !heuristics_unfold. apply heuristics_body_le; assumption.
Qed.

Lemma result_le_trans {B} (a b c : result B) :
  result_le a b -> result_le b c -> result_le a c.
Proof. intros [-> | ->]; auto. now left. Qed.

(** The bound of the model is not felt once an outcome is reached: an
    outcome of [limit] or [heuristics] that is a value or an exception is
    the same under every greater bound. *)
Theorem deeper_recursion_agrees (n m : nat) (e z z0 : Expr)
    (d : DirArg) :
  (n <= m)%nat ->
  (limit n e z z0 d <> OutOfFuel -> limit m e z z0 d = limit n e z z0 d)
  /\ (heuristics n e z z0 d <> OutOfFuel ->
      heuristics m e z z0 d = heuristics n e z z0 d).
Proof.
  intros Hle.
  assert (H : result_le (limit n e z z0 d) (limit m e z z0 d)
              /\ result_le (heuristics n e z z0 d)
                           (heuristics m e z z0 d)).
  { induction Hle as [|m Hle [IHl IHh]].
    - split; apply result_le_refl.
    - destruct (recursion_step m) as [Sl Sh].
      split; eapply result_le_trans; eauto. }
  destruct H as [[Hl | Hl] [Hh | Hh]]; split; intros; congruence.
Qed.

End Coverage2.

(** ** Concrete runs of the further properties *)

(** In [Limit(x + y, x, 0)] the symbol [y] is free and [x] is not. *)
Lemma Limit_free_symbols_spec_witness :
  ~ In x (Limit_free_symbols ex_free_symbols
            (mkLimit (Node HAdd [x; Symbol "y"]) x Zero (Symbol "+")))
  /\ In (Symbol "y")
        (Limit_free_symbols ex_free_symbols
           (mkLimit (Node HAdd [x; Symbol "y"]) x Zero (Symbol "+"))).
Proof.
  destruct (Limit_free_symbols_spec ex_free_symbols
              (mkLimit (Node HAdd [x; Symbol "y"]) x Zero (Symbol "+")))
    as (Hmem & Hvar & _).
  split.
  - intros H. apply (Hvar eq_refl) in H. exact H.
  - apply Hmem. left. split.
    + vm_compute. auto.
    + vm_compute. intros [H | []]. discriminate H.
Defined.

(** [Limit(1/x, x, 0, "+-")] is rebuilt from its arguments. *)
Lemma Limit_new_rebuild_witness :
  Limit_new inv_x x Zero (DBasic (Symbol "+-"))
  = Ok (mkLimit inv_x x Zero (Symbol "+-")).
Proof.
  exact (Limit_new_rebuild inv_x x Zero (DString "+-")
           (mkLimit inv_x x Zero (Symbol "+-")) eq_refl).
Defined.

(** [(1 + 1/x)**x] holds no [Abs]. *)
Lemma remove_abs_without_Abs_witness :
  remove_abs lim1 x Infinity (Symbol "-") compound = Ok compound.
Proof.
  exact (proj1 (remove_abs_without_Abs lim1 lim1 x Infinity (Symbol "-")
                  compound eq_refl)).
Defined.

(** [limit(x**3, x, -oo)] is [-oo] and [limit(x**3, x, oo)] is [oo]. *)
Lemma limit_meromorphic_at_infinity_witness :
  limit 0 cube x NegativeInfinity (DString "-") = Ok NegativeInfinity
  /\ limit 0 cube x Infinity (DString "+-") = Ok Infinity.
Proof.
  assert (Hne : cube <> x) by discriminate.
  assert (Hlt : (inject_Z (-3) < 0)%Q) by reflexivity.
  split.
  - exact (proj1 (limit_meromorphic_at_infinity 0 cube x NegativeOne
                    (Integer (-3)) (inject_Z (-3)) (DString "-")
                    Hne eq_refl eq_refl eq_refl Hlt) eq_refl eq_refl).
  - exact (proj2 (proj2 (limit_meromorphic_at_infinity 0 cube x NegativeOne
                           (Integer (-3)) (inject_Z (-3)) (DString "+-")
                           Hne eq_refl eq_refl eq_refl Hlt)
                    eq_refl eq_refl) eq_refl).
Defined.

(** [limit(floor(x), x, 0)] is the solver's [0]. *)
Lemma limit_returns_solver_answer_witness :
  limit 0 (floor x) x Zero (DString "+") = Ok Zero.
Proof.
  apply (limit_returns_solver_answer 0 (floor x) x Zero (DString "+")
           (mkLimit (floor x) x Zero (Symbol "+")) Zero);
    try reflexivity; discriminate.
Defined.

(** [limit(f(x), x, 0)], on which the solver answers not-a-number, is the
    heuristic's [f(0)]. *)
Lemma limit_hands_over_to_heuristics_witness :
  limit 2 (f x) x Zero (DString "+") = Ok (f Zero).
Proof.
  refine (eq_trans
            (limit_hands_over_to_heuristics 1 (f x) x Zero (DString "+")
               (mkLimit (f x) x Zero (Symbol "+"))
               eq_refl _ _ eq_refl eq_refl eq_refl eq_refl eq_refl eq_refl
               _ eq_refl)
            eq_refl); discriminate.
Defined.

(** [heuristics(f(x), x, 0, "+")] is [f] of the limit of [x]. *)
Lemma heuristics_recombines_witness :
  heuristics_body lim1 heur1 (f x) x Zero (DString "+") = Ok (Some (f Zero)).
Proof.
  change (heuristics_body lim1 heur1 (f x) x Zero (DString "+")
          = Ok (Some (construct (func_of (f x)) [Zero]))).
  apply (heuristics_recombines lim1 heur1 (f x) x Zero (DString "+") [Zero]);
    try reflexivity; try discriminate.
  constructor; [split; reflexivity | constructor].
Defined.

(** [heuristics(f(x < 1), x, 0, "+")]: the limit of the argument stays
    unevaluated. *)
Lemma heuristics_gives_up_witness :
  heuristics_body (inner_limit 2) (inner_heuristics 2) f_below_one x Zero
    (DString "+") = Ok None.
Proof.
  refine (proj1 (heuristics_gives_up (inner_limit 2) (inner_heuristics 2)
                   f_below_one x Zero (DString "+") [] [] [] below_one
                   eq_refl eq_refl eq_refl (Forall2_nil _))
            (to_expr (mkLimit below_one x Zero (Symbol "+"))) eq_refl _).
  right. split; [reflexivity | left; reflexivity].
Defined.

(** [heuristics(f(1/x) + x, x, 0, "+")]: the first limit is [f(oo)], and
    the sum has no product form. *)
Lemma heuristics_rewrites_sum_witness :
  heuristics_body (inner_limit 3) (inner_heuristics 3) f_inv_plus_x x Zero
    (DString "+") = Ok None.
Proof.
  refine (proj2 (proj2 (proj2
            (heuristics_rewrites_sum (inner_limit 3) (inner_heuristics 3)
               f_inv_plus_x x Zero (DString "+") [] [x] [] (f inv_x)
               (f Infinity) eq_refl eq_refl eq_refl (Forall2_nil _)
               eq_refl eq_refl))) eq_refl eq_refl eq_refl).
Defined.

(** [heuristics((1/x)*x, x, 0, "+")]: [oo*0] is not-a-number and [ratsimp]
    changes nothing. *)
Lemma heuristics_last_resort_witness :
  heuristics_body lim1 heur1 inv_times_x x Zero (DString "+") = Ok None.
Proof.
  assert (Hargs : args_of inv_times_x <> []) by discriminate.
  refine (proj1 (proj2
            (heuristics_last_resort lim1 heur1 inv_times_x x Zero
               (DString "+") [Infinity; Zero] eq_refl eq_refl Hargs _
               eq_refl eq_refl)) inv_times_x eq_refl _).
  - constructor; [split; reflexivity|].
    constructor; [split; reflexivity | constructor].
  - now right.
Defined.

(** [x - x] has no leading term: the fast path is left. *)
Lemma leadterm_failure_witness :
  before_product lim1 false (mkLimit x_minus_x x Zero (Symbol "+"))
  = Next (x_minus_x, x, Zero).
Proof.
  exact (proj1 (leadterm_failure lim1 heur1 false
                  (mkLimit x_minus_x x Zero (Symbol "+")) x_minus_x x Zero
                  value_error eq_refl eq_refl eq_refl) eq_refl).
Defined.

(** [x*f(x)] at [oo]: no leading term is available. *)
Lemma product_path_abandoned_witness :
  mul_at_infinity lim1 (mkLimit x_times_f x Infinity (Symbol "-"))
    x_times_f x Infinity = Next x_times_f.
Proof.
  exact (product_path_abandoned lim1
           (mkLimit x_times_f x Infinity (Symbol "-")) x_times_f x Infinity
           not_implemented eq_refl eq_refl eq_refl eq_refl).
Defined.

(** [limit(O(1/x, x), x, 0)] is [O(oo, x)]. *)
Lemma order_term_passes_through_witness :
  doit 1 false (mkLimit order_inv_x x Zero (Symbol "+"))
  = Ok (Order [Infinity; x]).
Proof.
  exact (proj1 (order_term_passes_through lim1 heur1 false
                  (mkLimit order_inv_x x Zero (Symbol "+")) inv_x [x] x Zero
                  eq_refl) Infinity eq_refl).
Defined.

(** [limit(x**oo, x, 0)] stays unevaluated. *)
Lemma power_with_infinity_unevaluated_witness :
  doit 1 false (mkLimit x_to_infinity x Zero (Symbol "+"))
  = Ok (to_expr (mkLimit x_to_infinity x Zero (Symbol "+"))).
Proof.
  exact (power_with_infinity_unevaluated lim1 heur1 false
           (mkLimit x_to_infinity x Zero (Symbol "+")) x_to_infinity x Zero
           eq_refl eq_refl eq_refl).
Defined.

(** With the second instance [limit((1 + 1/x)**x, x, oo)] goes through
    [x*log(1 + 1/x)], whose limit is [1]. *)
Lemma power_log_transform_witness :
  doit (A := series_algebra) 1 false
    (mkLimit compound x Infinity (Symbol "-"))
  = Ok (exp (A := series_algebra) One).
Proof.
  exact (power_log_transform (A := series_algebra)
           (inner_limit (A := series_algebra) 1)
           (inner_heuristics (A := series_algebra) 1) false
           (mkLimit compound x Infinity (Symbol "-"))
           one_plus_inv_x x [] x Infinity One
           eq_refl eq_refl eq_refl eq_refl).
Defined.

(** [limit(x**x, x, -oo)] is [0]. *)
Lemma power_of_zero_or_infinite_base_witness :
  doit 1 false (mkLimit x_to_x x NegativeInfinity (Symbol "+")) = Ok Zero.
Proof.
  exact (proj1 (proj2
           (power_of_zero_or_infinite_base lim1 heur1 false
              (mkLimit x_to_x x NegativeInfinity (Symbol "+"))
              x x [] x NegativeInfinity NegativeInfinity NegativeInfinity
              eq_refl eq_refl eq_refl eq_refl eq_refl)) eq_refl eq_refl).
Defined.

(** With the second instance [limit((x + 2)**(x + 3), x, 0)] is [2**3]. *)
Lemma power_of_limits_witness :
  doit (A := series_algebra) 1 false
    (mkLimit shifted_power x Zero (Symbol "+"))
  = Ok (Integer 8).
Proof.
  refine (proj1
            (power_of_limits (A := series_algebra)
               (inner_limit (A := series_algebra) 1)
               (inner_heuristics (A := series_algebra) 1) false
               (mkLimit shifted_power x Zero (Symbol "+"))
               (Node HAdd [x; Integer 2]) (Node HAdd [x; Integer 3]) []
               x Zero (Integer 3) (Integer 2)
               eq_refl eq_refl eq_refl eq_refl eq_refl _ _ _ _
               eq_refl eq_refl) _ eq_refl);
    discriminate.
Defined.

(** With the second instance [limit(cos(x), x, 0, "+-")] is the [1] the
    solver gives on both sides. *)
Lemma solver_agreement_witness :
  doit (A := series_algebra) 1 false
    (mkLimit cos_x x Zero (Symbol "+-"))
  = Ok One.
Proof.
  refine (proj1
            (solver_agreement (A := series_algebra)
               (inner_limit (A := series_algebra) 1)
               (inner_heuristics (A := series_algebra) 1) false
               (mkLimit cos_x x Zero (Symbol "+-")) cos_x x Zero eq_refl)
            One eq_refl eq_refl eq_refl _).
  discriminate.
Defined.

(** [limit((1 + 1/x)**x, x, oo)] with recursion bound [1] and with [4]. *)
Lemma deeper_recursion_agrees_witness :
  limit 4 compound x Infinity (DString "+") = Ok (exp One).
Proof.
  assert (Hle : (1 <= 4)%nat) by (repeat constructor).
  refine (proj1 (deeper_recursion_agrees 1 4 compound x Infinity
                   (DString "+") Hle) _).
  discriminate.
Defined.

(** [Limit(f(x), x, 0).doit()]: the solver answers not-a-number and the
    heuristic [f(0)]. *)
Lemma one_sided_pole_falls_back_witness :
  doit 2 false (mkLimit (f x) x Zero (Symbol "+")) = Ok (f Zero).
Proof.
  refine (eq_trans
            (one_sided_pole_falls_back (inner_limit 2) (inner_heuristics 2)
               false (mkLimit (f x) x Zero (Symbol "+")) (f x) x Zero
               eq_refl _ eq_refl)
            eq_refl).
  discriminate.
Defined.

(** [Limit(g(x), x, 0, "+-").doit()]: the solver raises [PoleError] on the
    right and the heuristic answers [g(0)]. *)
Lemma two_sided_raise_falls_back_witness :
  doit 2 false (mkLimit g_x x Zero (Symbol "+-"))
  = Ok (Node (HFunction "g") [Zero]).
Proof.
  refine (eq_trans
            (two_sided_raise_falls_back (inner_limit 2) (inner_heuristics 2)
               false (mkLimit g_x x Zero (Symbol "+-")) g_x x Zero
               (mk_exn PoleError []) eq_refl eq_refl eq_refl
               (or_introl eq_refl))
            eq_refl).
Defined.

